(** * Timeline playback synchronizer of the video editor front end

    A shallow embedding of the React components [VideoPlayer], [Timeline]
    and [App], and the properties of their playback logic.

    Modelling conventions.
    - A JavaScript [number] is an exact rational ([Q]); comparisons are the
      boolean comparisons of [Q], and numeric equality is [==].
    - An array passed by value is a [list]; where aliasing matters
      (module [Heap]) arrays live in a store indexed by references.
    - A React callback prop or a call on the media element is an [Event]
      appended to a trace; component state is threaded explicitly. *)

From Stdlib Require Import QArith Qminmax Qabs Lqa Qround.
From Stdlib Require Import List String Bool Ascii DecimalString.
From Stdlib Require Import Sorting.Sorted Sorting.Permutation.
From stdpp Require Import gmap.
Import ListNotations.

Local Open Scope Q_scope.

(** ** JavaScript numbers and the built-ins the components call *)

Module JS.

Definition number := Q.

(** [a <= b], [a < b], [a >= b], [a > b] on numbers. *)
Definition le (a b : number) : bool := Qle_bool a b.
Definition lt (a b : number) : bool := negb (Qle_bool b a).
Definition ge (a b : number) : bool := le b a.
Definition gt (a b : number) : bool := lt b a.

Definition Math_max (a b : number) : number := Qmax a b.
Definition Math_min (a b : number) : number := Qmin a b.
Definition Math_abs (a : number) : number := Qabs a.

(** [x || 0] on a number: a falsy number is [0]. *)
Definition or_zero (x : number) : number := if Qeq_bool x 0 then 0 else x.

Section Sort.
Context {A : Type} (compareFn : A -> A -> number).

(** [Array.prototype.sort(compareFn)] is a stable sort: [a] goes before
    [b] when [compareFn a b < 0], after it when [compareFn a b > 0], and
    elements that compare equal keep their relative order.  A stable
    sort has one possible result, computed here by insertion. *)
Fixpoint insert (x : A) (l : list A) : list A :=
  match l with
  | [] => [x]
  | y :: l' => if le (compareFn x y) 0 then x :: y :: l' else y :: insert x l'
  end.

Fixpoint sort (l : list A) : list A :=
  match l with
  | [] => []
  | x :: l' => insert x (sort l')
  end.
End Sort.

End JS.

(** ** The data model shared by the components *)

Record Clip := mkClip {
  id : string;
  source_file : string;
  start : Q;
  duration : Q;
  track_id : string
}.

Record TimelineState := mkTimelineState {
  ts_clips : list Clip;
  ts_duration : Q;
  playhead_time : Q;
  version : Z
}.

(** The loop test of [getActiveClip]:
    [clip.start <= time && time < clip.start + clip.duration]. *)
Definition covers (clip : Clip) (time : Q) : bool :=
  JS.le (start clip) time && JS.lt time (start clip + duration clip).

(** The comparator handed to [sort]: [(a, b) => a.start - b.start]. *)
Definition byStart (a b : Clip) : Q := start a - start b.

(** [getActiveClip(clips, time)]: sort a copy by start, return the first
    clip whose interval holds [time], [null] when there is none. *)
Definition getActiveClip (clips : list Clip) (time : Q) : option Clip :=
  let sorted := JS.sort byStart clips in
  List.find (fun clip => covers clip time) sorted.

(** ** Arrays as shared objects

    [getActiveClip] receives a reference to the caller's array.  This
    module keeps arrays in a store so that the difference between sorting
    the array and sorting a copy of it is visible. *)

Module Heap.

Definition ref := nat.
Abbreviation store := (gmap ref (list Clip)).

(** A computation reads and writes the store; it has no result when it
    follows a reference that the store does not hold. *)
Definition M (A : Type) : Type := store -> option (A * store).

Definition ret {A} (a : A) : M A := fun h => Some (a, h).
Definition bind {A B} (m : M A) (k : A -> M B) : M B :=
  fun h => match m h with
           | Some (a, h') => k a h'
           | None => None
           end.

Declare Scope heap_scope.
Delimit Scope heap_scope with heap.
Notation "'let*' x ':=' m 'in' k" := (bind m (fun x => k))
  (at level 10, x name, m at level 100, k at level 200) : heap_scope.
Local Open Scope heap_scope.

Definition read (r : ref) : M (list Clip) :=
  fun h => match h !! r with
           | Some l => Some (l, h)
           | None => None
           end.

Definition write (r : ref) (l : list Clip) : M unit :=
  fun h => match h !! r with
           | Some _ => Some (tt, <[r := l]> h)
           | None => None
           end.

Definition alloc (l : list Clip) : M ref :=
  fun h => let r := fresh (dom h) in Some (r, <[r := l]> h).

(** [[...a]]: a new array with the elements of [a]. *)
Definition spread (a : ref) : M ref :=
  let* l := read a in alloc l.

(** [a.sort(compareFn)] sorts [a] in place and returns [a] itself. *)
Definition Array_sort (a : ref) (compareFn : Clip -> Clip -> Q) : M ref :=
  let* l := read a in
  let* _ := write a (JS.sort compareFn l) in
  ret a.

(** [getActiveClip] on references, statement by statement. *)
Definition getActiveClip (clips : ref) (time : Q) : M (option Clip) :=
  let* copy := spread clips in
  let* sorted := Array_sort copy byStart in
  let* l := read sorted in
  ret (List.find (fun clip => covers clip time) l).

(** The variant without the copy, [clips.sort(...)], for comparison. *)
Definition getActiveClip_in_place (clips : ref) (time : Q) : M (option Clip) :=
  let* sorted := Array_sort clips byStart in
  let* l := read sorted in
  ret (List.find (fun clip => covers clip time) l).

End Heap.

(** ** The [VideoPlayer] component *)

Module VideoPlayer.

(** The fields of the [<video>] element that the component reads or
    writes.  The element advances [currentTime] by itself while it
    plays; the component only sees the value it reads at each step. *)
Record HTMLVideoElement := mkVideo {
  src : string;
  currentTime : Q;
  paused : bool
}.

(** Props; the callbacks [onPlayheadChange] and [onPlayingChange] are
    events of the trace. *)
Record Props := mkProps {
  clips : list Clip;
  playheadTime : Q;
  isPlaying : bool
}.

(** What the component does to the outside: calls of its callback props,
    of the frame scheduler and of the media element. *)
Inductive Event :=
| onPlayheadChange (time : Q)
| onPlayingChange (playing : bool)
| requestAnimationFrame (handle : nat)
| cancelAnimationFrame (handle : nat)
| video_set_src (url : string)
| video_set_currentTime (time : Q)
| video_play
| video_pause.

(** [videoRef.current], the [useState] cells, [animationFrameRef.current]
    and the scheduler's last handle. *)
Record State := mkState {
  videoRef : option HTMLVideoElement;
  error : option string;
  currentClipId : option string;
  animationFrameRef : option nat;
  lastFrameHandle : nat
}.

(** Effects and handlers run in a state monad that also records events. *)
Definition M (A : Type) : Type := State -> A * State * list Event.

Definition ret {A} (a : A) : M A := fun s => (a, s, []).
Definition bind {A B} (m : M A) (k : A -> M B) : M B :=
  fun s => let '(a, s1, t1) := m s in
           let '(b, s2, t2) := k a s1 in
           (b, s2, t1 ++ t2).
Definition gets {A} (f : State -> A) : M A := fun s => (f s, s, []).
Definition modify (f : State -> State) : M unit := fun s => (tt, f s, []).
Definition emit (e : Event) : M unit := fun s => (tt, s, [e]).
Definition skip : M unit := ret tt.

Definition exec {A} (m : M A) (s : State) : State := snd (fst (m s)).
Definition trace {A} (m : M A) (s : State) : list Event := snd (m s).

Declare Scope player_scope.
Delimit Scope player_scope with player.
Notation "'do' x '<-' m ';' k" := (bind m (fun x => k))
  (at level 10, x name, m at level 100, k at level 200) : player_scope.
Notation "m ';;' k" := (bind m (fun _ => k))
  (at level 100, k at level 200, right associativity) : player_scope.
Local Open Scope player_scope.

(** *** State setters and media-element operations *)

Definition setCurrentClipId (v : option string) : M unit :=
  modify (fun s => mkState (videoRef s) (error s) v (animationFrameRef s) (lastFrameHandle s)).
Definition setError (v : option string) : M unit :=
  modify (fun s => mkState (videoRef s) v (currentClipId s) (animationFrameRef s) (lastFrameHandle s)).
Definition set_animationFrameRef (v : option nat) : M unit :=
  modify (fun s => mkState (videoRef s) (error s) (currentClipId s) v (lastFrameHandle s)).
Definition update_video (f : HTMLVideoElement -> HTMLVideoElement) : M unit :=
  modify (fun s => mkState (option_map f (videoRef s)) (error s) (currentClipId s)
                           (animationFrameRef s) (lastFrameHandle s)).

(** [video.src = url] *)
Definition set_src (url : string) : M unit :=
  update_video (fun v => mkVideo url (currentTime v) (paused v)) ;;
  emit (video_set_src url).
(** [video.currentTime = time] *)
Definition set_currentTime (time : Q) : M unit :=
  update_video (fun v => mkVideo (src v) time (paused v)) ;;
  emit (video_set_currentTime time).
(** [video.play()] *)
Definition play : M unit :=
  update_video (fun v => mkVideo (src v) (currentTime v) false) ;;
  emit video_play.
(** [video.pause()] *)
Definition pause : M unit :=
  update_video (fun v => mkVideo (src v) (currentTime v) true) ;;
  emit video_pause.

(** [requestAnimationFrame(updatePlayhead)]: the scheduler hands out the
    next handle, a positive number. *)
Definition request_frame : M nat :=
  do h <- gets (fun s => S (lastFrameHandle s));
  modify (fun s => mkState (videoRef s) (error s) (currentClipId s) (animationFrameRef s) h) ;;
  emit (requestAnimationFrame h) ;;
  ret h.

(** [if (animationFrameRef.current) cancelAnimationFrame(...)]: a handle
    is truthy when it is set and not [0]. *)
Definition cancel_pending_frame : M unit :=
  do r <- gets animationFrameRef;
  match r with
  | Some (S h) => emit (cancelAnimationFrame (S h))
  | _ => skip
  end.

(** [activeClip.id !== currentClipId] *)
Definition id_differs (clipId : string) (current : option string) : bool :=
  match current with
  | Some c => negb (String.eqb clipId c)
  | None => true
  end.

(** [const activeClip = getActiveClip(clips, playheadTime)] *)
Definition activeClip (p : Props) : option Clip :=
  getActiveClip (clips p) (playheadTime p).

Section Effects.
(** The platform bridge from a file path to a loadable URL. *)
Variable convertFileSrc : string -> string.

(** Effect "update video source when active clip changes". *)
Definition clipChangeEffect (p : Props) : M unit :=
  match activeClip p with
  | None => setCurrentClipId None
  | Some clip =>
      do current <- gets currentClipId;
      if id_differs (id clip) current then
        setCurrentClipId (Some (id clip)) ;;
        setError None ;;
        do video <- gets videoRef;
        match video with
        | Some _ =>
            let url := convertFileSrc (source_file clip) in
            set_src url ;;
            let offsetInClip := playheadTime p - start clip in
            let clampedOffset := JS.Math_max 0 offsetInClip in
            set_currentTime clampedOffset ;;
            if isPlaying p then play else skip
        | None => skip
        end
      else skip
  end.
End Effects.

(** The body of the effect "sync video position when playhead changes
    externally"; whether it runs after a render is decided by the effect's
    dependency list, in [driftSyncHook] below. *)
Definition driftSyncEffect (p : Props) : M unit :=
  do video <- gets videoRef;
  match activeClip p, video with
  | Some clip, Some v =>
      let offsetInClip := playheadTime p - start clip in
      let currentVideoTime := currentTime v in
      if JS.gt (JS.Math_abs (currentVideoTime - offsetInClip)) 0.1
      then set_currentTime (JS.Math_max 0 offsetInClip)
      else skip
  | _, _ => skip
  end.

(** The dependency list of that effect, [[playheadTime, activeClip?.start]]. *)
Definition driftSyncDeps (p : Props) : Q * option Q :=
  (playheadTime p, option_map start (activeClip p)).

(** Two dependency lists are the same when their entries are the same
    values, a number or [undefined]. *)
Definition sameDeps (a b : Q * option Q) : bool :=
  Qeq_bool (fst a) (fst b) &&
  match snd a, snd b with
  | Some x, Some y => Qeq_bool x y
  | None, None => true
  | _, _ => false
  end.

(** [useEffect(body, [playheadTime, activeClip?.start])]: the body runs
    after the first render, where [previous] is [None], and after a render
    whose dependency list differs from that of the previous render. *)
Definition driftSyncRuns (previous : option Props) (p : Props) : bool :=
  match previous with
  | None => true
  | Some q => negb (sameDeps (driftSyncDeps q) (driftSyncDeps p))
  end.

Definition driftSyncHook (previous : option Props) (p : Props) : M unit :=
  if driftSyncRuns previous p then driftSyncEffect p else skip.

(** [updatePlayhead], the body of one animation-frame tick. *)
Definition updatePlayhead (p : Props) : M unit :=
  do video <- gets videoRef;
  match video, activeClip p, isPlaying p with
  | Some v, Some clip, true =>
      let videoTime := currentTime v in
      let newPlayheadTime := start clip + videoTime in
      let continue :=
        if isPlaying p
        then do h <- request_frame; set_animationFrameRef (Some h)
        else skip in
      if JS.ge videoTime (duration clip) then
        match getActiveClip (clips p) (start clip + duration clip + 0.01) with
        | Some nextClip => emit (onPlayheadChange (start nextClip)) ;; continue
        | None => emit (onPlayingChange false)
        end
      else
        emit (onPlayheadChange newPlayheadTime) ;; continue
  | _, _, _ => skip
  end.

(** Effect "start/stop playback loop" and its cleanup. *)
Definition playbackLoopEffect (p : Props) : M unit :=
  do video <- gets videoRef;
  match video with
  | Some _ =>
      if isPlaying p then
        play ;;
        do h <- request_frame; set_animationFrameRef (Some h)
      else
        pause ;; cancel_pending_frame
  | None => skip
  end.

Definition playbackLoopCleanup : M unit := cancel_pending_frame.

(** [clips.reduce((max, c) => Math.max(max, c.start + c.duration), 0)] *)
Definition totalDuration (clips : list Clip) : Q :=
  fold_left (fun max c => JS.Math_max max (start c + duration c)) clips 0.

(** [togglePlay], the handler of the play/pause button. *)
Definition togglePlay (p : Props) : M unit :=
  if (length (clips p) =? 0)%nat then skip
  else
    (if negb (isPlaying p) && JS.ge (playheadTime p) (totalDuration (clips p) - 0.1)
     then emit (onPlayheadChange 0)
     else skip) ;;
    emit (onPlayingChange (negb (isPlaying p))).

(** What the component renders; the [<video>] element is mounted, and
    [videoRef.current] set, only in the last case. *)
Inductive View := NoVideoLoaded | GapInTimeline | FailedToLoad | VideoElement.

Definition render (p : Props) (s : State) : View :=
  if (length (clips p) =? 0)%nat then NoVideoLoaded
  else match activeClip p with
       | None => GapInTimeline
       | Some _ => match error s with
                   | Some (String _ _) => FailedToLoad
                   | _ => VideoElement
                   end
       end.

End VideoPlayer.

(** ** The [Timeline] component *)

Module Timeline.

(** Zoom level. *)
Definition PIXELS_PER_SECOND : Q := 50.

(** The part of a click event the handler reads: the pointer's
    [clientX], the left edge of the scroll area's bounding rectangle and
    the area's [scrollLeft]. *)
Record MouseEvent := mkMouseEvent {
  clientX : Q;
  rect_left : Q;
  scrollLeft : Q
}.

Inductive Event := onSeek (time : Q).

(** The playhead cursor is drawn at [playheadTime * PIXELS_PER_SECOND]. *)
Definition timeToPixel (t : Q) : Q := t * PIXELS_PER_SECOND.

(** [timelineState?.duration || 0] *)
Definition maxTime (timelineState : option TimelineState) : Q :=
  match timelineState with
  | Some ts => JS.or_zero (ts_duration ts)
  | None => 0
  end.

(** From a pixel on the timeline surface to the clamped time. *)
Definition pixelToTime (timelineState : option TimelineState) (x : Q) : Q :=
  let time := x / PIXELS_PER_SECOND in
  JS.Math_max 0 (JS.Math_min time (maxTime timelineState)).

(** [handleTimelineClick] *)
Definition handleTimelineClick (timelineState : option TimelineState)
           (e : MouseEvent) : list Event :=
  let x := clientX e - rect_left e + scrollLeft e in
  let clampedTime := pixelToTime timelineState x in
  [onSeek clampedTime].

End Timeline.

(** ** The [App] component *)

Module App.

(** How a call settles: it returns, or it throws (a promise rejects). *)
Inductive Completion (A : Type) :=
| Returned (a : A)
| Thrown (reason : string).
Arguments Returned {A} a.
Arguments Thrown {A} reason.

Inductive Effect :=
| invoke_seek_timeline (time : Q)
| console_error (message : string).

Section Backend.
(** The backend's answer to [invoke("seek_timeline", { time })]. *)
Variable seek_timeline : Q -> Completion unit.

(** [seekTo]: call the backend; a rejection is caught and logged. *)
Definition seekTo (time : Q) : Completion unit * list Effect :=
  match seek_timeline time with
  | Returned _ => (Returned tt, [invoke_seek_timeline time])
  | Thrown reason => (Returned tt, [invoke_seek_timeline time; console_error reason])
  end.

(** The timeline's [onSeek] prop is [seekTo]. *)
Definition onTimelineEvent (e : Timeline.Event) : Completion unit * list Effect :=
  match e with
  | Timeline.onSeek time => seekTo time
  end.
End Backend.

(** The [STATE_UPDATE] listener: the payload replaces [timelineState]. *)
Definition onStateUpdate (payload : TimelineState)
           (timelineState : option TimelineState) : option TimelineState :=
  Some payload.

(** The props [App] hands to [VideoPlayer]:
    [clips={timelineState?.clips || []}],
    [playheadTime={timelineState?.playhead_time ?? 0}]. *)
Definition videoPlayerProps (timelineState : option TimelineState)
           (isPlaying : bool) : VideoPlayer.Props :=
  match timelineState with
  | Some ts => VideoPlayer.mkProps (ts_clips ts) (playhead_time ts) isPlaying
  | None => VideoPlayer.mkProps [] 0 isPlaying
  end.

(** [onPlayingChange={setIsPlaying}] *)
Definition setIsPlaying (playing : bool) (isPlaying : bool) : bool := playing.

End App.

(** ** Vocabulary of the statements *)

(** Ascending order of start. *)
Definition startLe (a b : Clip) : Prop := start a <= start b.

(** The clips that start at [q]. *)
Definition startsAt (q : Q) (c : Clip) : bool := Qeq_bool (start c) q.

(** The end of a clip's interval, [start + duration]. *)
Definition clipEnd (c : Clip) : Q := start c + duration c.

(** [t] lies in the half-open interval [[start, start + duration)]. *)
Definition inInterval (c : Clip) (t : Q) : Prop :=
  start c <= t /\ t < start c + duration c.

(** The resolver as the specification words it, without a sort: of the
    clips whose interval holds [t], the one that starts earliest, and of
    those that start together the one listed first. *)
Definition earlier (x : Clip) (r : option Clip) : option Clip :=
  match r with
  | None => Some x
  | Some y => if JS.le (byStart x y) 0 then Some x else Some y
  end.

Fixpoint resolve (clips : list Clip) (t : Q) : option Clip :=
  match clips with
  | [] => None
  | x :: l => if covers x t then earlier x (resolve l t) else resolve l t
  end.

(** Two clips do not overlap when one ends no later than the other starts;
    a clip list does not overlap when no two of its entries do. *)
Definition disjoint (a b : Clip) : Prop :=
  clipEnd a <= start b \/ clipEnd b <= start a.

Definition NoOverlap (clips : list Clip) : Prop := ForallOrdPairs disjoint clips.

(** [clamp(x, lo, hi)] as the specification writes it. *)
Definition clamp (x lo hi : Q) : Q := Qmax lo (Qmin x hi).

(** ** Concrete timelines used as examples *)

Module Scenario.

(** A platform bridge. *)
Definition assetUrl (path : string) : string := ("asset://localhost/" ++ path)%string.

(** Two abutting clips, [0, 5) and [5, 8). *)
Definition first5 : Clip := mkClip "clip-1" "/media/one.mp4" 0 5 "track-0".
Definition next3 : Clip := mkClip "clip-2" "/media/two.mp4" 5 3 "track-0".
Definition abutting : list Clip := [first5; next3].

(** One clip, [0, 4). *)
Definition only4 : Clip := mkClip "clip-1" "/media/one.mp4" 0 4 "track-0".

(** Two clips on different tracks that overlap, [0, 5) and [3, 10). *)
Definition under : Clip := mkClip "clip-a" "/media/a.mp4" 0 5 "track-0".
Definition over : Clip := mkClip "clip-b" "/media/b.mp4" 3 7 "track-1".
Definition overlapping : list Clip := [under; over].

(** A mounted media element playing [clip] at [elapsed] seconds. *)
Definition playing (clip : Clip) (elapsed : Q) : VideoPlayer.State :=
  VideoPlayer.mkState
    (Some (VideoPlayer.mkVideo (assetUrl (source_file clip)) elapsed false))
    None (Some (id clip)) None 0.

(** A mounted media element with nothing bound yet. *)
Definition unbound : VideoPlayer.State :=
  VideoPlayer.mkState (Some (VideoPlayer.mkVideo "" 0 true)) None None None 0.

(** The snapshot the backend broadcasts with the playhead at [t]. *)
Definition snapshot (clips : list Clip) (t : Q) : TimelineState :=
  mkTimelineState clips (VideoPlayer.totalDuration clips) t 1.

End Scenario.

(** ** The media element's events in [VideoPlayer] *)

Module MediaEvents.
Import VideoPlayer.

(** The codes of [MediaError]. *)
Definition MEDIA_ERR_ABORTED : nat := 1.
Definition MEDIA_ERR_NETWORK : nat := 2.
Definition MEDIA_ERR_DECODE : nat := 3.
Definition MEDIA_ERR_SRC_NOT_SUPPORTED : nat := 4.

(** A non-negative integer in a template literal. *)
Definition decimal (n : nat) : string := NilZero.string_of_uint (Nat.to_uint n).

(** The message built by [onError] from [target.error], [None] when the
    element reports no error object. *)
Definition errorMessage (mediaError : option nat) : string :=
  let msg := "Playback failed."%string in
  match mediaError with
  | Some code =>
      if (code =? MEDIA_ERR_ABORTED)%nat then (msg ++ " Aborted.")%string
      else if (code =? MEDIA_ERR_NETWORK)%nat then (msg ++ " Network error.")%string
      else if (code =? MEDIA_ERR_DECODE)%nat then (msg ++ " Decode error.")%string
      else if (code =? MEDIA_ERR_SRC_NOT_SUPPORTED)%nat then (msg ++ " Format not supported.")%string
      else (msg ++ " Code: " ++ decimal code)%string
  | None => msg
  end.

(** [onError] and [onLoadedData] are props of the [<video>] element: they
    can fire only while the component renders that element. *)
Definition whileElementRendered (p : Props) (handler : M unit) : M unit :=
  fun s => match render p s with
           | VideoElement => handler s
           | _ => skip s
           end.

(** [onError] of the [<video>] element. *)
Definition onError (p : Props) (mediaError : option nat) : M unit :=
  whileElementRendered p (setError (Some (errorMessage mediaError))).

(** [onLoadedData] of the [<video>] element. *)
Definition onLoadedData (p : Props) : M unit :=
  whileElementRendered p (setError None).

End MediaEvents.

(** ** What [Timeline] draws *)

Module TimelineView.
Import Timeline.

(** [totalWidth]: the width of the tracks, with padding at the end. *)
Definition totalWidth (timelineState : option TimelineState) : Q :=
  match timelineState with
  | None => 0
  | Some ts => JS.Math_max (ts_duration ts * PIXELS_PER_SECOND + 200) 1000
  end.

(** [left] and [width] of a clip's box. *)
Definition clipLeft (clip : Clip) : Q := start clip * PIXELS_PER_SECOND.
Definition clipWidth (clip : Clip) : Q := duration clip * PIXELS_PER_SECOND - 1.

(** [Array.from({ length: Math.ceil(duration + 5) })]: a length below
    zero gives the empty array. *)
Definition rulerLength (ts : TimelineState) : nat :=
  Z.to_nat (Qceiling (ts_duration ts + 5)).

(** The ruler: tick [i], labelled [i] seconds, at [i * PIXELS_PER_SECOND]. *)
Definition rulerTicks (ts : TimelineState) : list (nat * Q) :=
  map (fun i => (i, inject_Z (Z.of_nat i) * PIXELS_PER_SECOND)) (seq 0 (rulerLength ts)).

(** [ToInt32]: an integer wrapped into 32 bits, signed. *)
Definition toInt32 (z : Z) : Z := ((z + 2 ^ 31) mod 2 ^ 32 - 2 ^ 31)%Z.

(** [hash << 5] *)
Definition shl5 (hash : Z) : Z := toInt32 (toInt32 hash * 2 ^ 5).

(** The loop of [stringToColor] over the UTF-16 code units of the string:
    [hash = str.charCodeAt(i) + ((hash << 5) - hash)].  Only the shift
    wraps; the sum and the difference are sums of numbers. *)
Definition hashStep (hash charCode : Z) : Z := (charCode + (shl5 hash - hash))%Z.
Definition hashOf (str : list Z) : Z := fold_left hashStep str 0%Z.

(** [Math.abs(hash) % 360] *)
Definition hue (str : list Z) : Z := Z.rem (Z.abs (hashOf str)) 360.

(** [stringToColor]: the colour of a clip's box. *)
Definition stringToColor (str : list Z) : string :=
  ("hsl(" ++ MediaEvents.decimal (Z.to_nat (hue str)) ++ ", 60%, 35%)")%string.

(** The code units of a string of ASCII characters. *)
Definition charCodes (s : string) : list Z :=
  map (fun c => Z.of_nat (nat_of_ascii c)) (list_ascii_of_string s).

End TimelineView.

(** ** The [MissionControl] component *)

Module MissionControl.
Import App.

Record State := mkState {
  prompt : string;
  status : option string;
  isProcessing : bool;
  isRendering : bool
}.

(** Calls to the backend, the [onPreviewReady] prop and the state setters,
    in the order they are made. *)
Inductive Event :=
| invoke_process_user_prompt (userInput requestId : string)
| invoke_apply_edit_plan (rawLlmOutput : string)
| invoke_render_preview
| onPreviewReady (path : string)
| setStatus (status : string)
| setIsProcessing (processing : bool)
| setIsRendering (rendering : bool).

Definition isEmpty (s : string) : bool :=
  match s with
  | EmptyString => true
  | String _ _ => false
  end.

Section Backend.
(** The backend's answers: the text of the model's response, the result
    of applying the plan, the path of the rendered preview. *)
Variable process_user_prompt : string -> string -> Completion string.
Variable apply_edit_plan : string -> Completion string.
Variable render_preview : Completion string.

(** The [try] block of [runAiJsonEdit]: what it invoked and how it ended. *)
Definition editChain (userInput requestId : string) : list Event * Completion string :=
  match process_user_prompt userInput requestId with
  | Thrown reason => ([invoke_process_user_prompt userInput requestId], Thrown reason)
  | Returned text =>
      ([invoke_process_user_prompt userInput requestId; invoke_apply_edit_plan text],
       apply_edit_plan text)
  end.

(** [runAiJsonEdit]; [requestId] is the value of [crypto.randomUUID()]. *)
Definition runAiJsonEdit (requestId : string) (s : State) : State * list Event :=
  if isEmpty (prompt s) then (s, [])
  else
    let '(calls, outcome) := editChain (prompt s) requestId in
    let final :=
      match outcome with
      | Returned result => ("Success: " ++ result)%string
      | Thrown reason => ("Error: " ++ reason)%string
      end in
    (mkState (prompt s) (Some final) false (isRendering s),
     [setIsProcessing true; setStatus "Processing request..."] ++ calls ++
     [setStatus final; setIsProcessing false]).

(** [handleRender] *)
Definition handleRender (s : State) : State * list Event :=
  match render_preview with
  | Returned path =>
      (mkState (prompt s) (Some "Render complete!"%string) (isProcessing s) false,
       [setIsRendering true; setStatus "Rendering preview..."; invoke_render_preview;
        setStatus "Render complete!"; onPreviewReady path; setIsRendering false])
  | Thrown reason =>
      (mkState (prompt s) (Some ("Render Failed: " ++ reason)%string) (isProcessing s) false,
       [setIsRendering true; setStatus "Rendering preview..."; invoke_render_preview;
        setStatus ("Render Failed: " ++ reason); setIsRendering false])
  end.
End Backend.

(** The banner is drawn when [status] is a non-empty string, in the error
    style when it starts with "Error" or "Render Failed". *)
Inductive Banner := NoBanner | StatusError | StatusSuccess.

Definition banner (s : State) : Banner :=
  match status s with
  | Some (String c rest) =>
      if String.prefix "Error" (String c rest) || String.prefix "Render Failed" (String c rest)
      then StatusError else StatusSuccess
  | _ => NoBanner
  end.

(** [disabled] of the two buttons. *)
Definition runDisabled (s : State) : bool := isProcessing s || isEmpty (prompt s).
Definition renderDisabled (s : State) : bool := isRendering s || isProcessing s.

End MissionControl.

(** ** Dropped files in [App] *)

Module FileImport.
Import App.

Inductive Effect :=
| invoke_import_video (filePath : string)
| console_warn_ignored (path : string).

(** Lower case of an ASCII letter, other characters as they are. *)
Definition lower (c : ascii) : ascii :=
  let n := nat_of_ascii c in
  if ((65 <=? n) && (n <=? 90))%nat then ascii_of_nat (n + 32) else c.

Definition videoExtensions : list string := ["mp4"; "mov"; "avi"; "mkv"; "webm"]%string.

(** [path.match(/\.(mp4|mov|avi|mkv|webm)$/i)]: the path ends with a dot
    and one of the extensions, letters compared without case. *)
Definition endsWithIgnoringCase (path ending : string) : bool :=
  bool_decide (list_ascii_of_string ending
                 `suffix_of` map lower (list_ascii_of_string path)).

Definition isVideoPath (path : string) : bool :=
  existsb (fun ext => endsWithIgnoringCase path ("." ++ ext)) videoExtensions.

(** The [tauri://drop] listener: what it calls for each path, in order.
    The callbacks on the promise of [invoke] only write to the console. *)
Definition onDrop (paths : list string) : list Effect :=
  map (fun path => if isVideoPath path then invoke_import_video path
                   else console_warn_ignored path) paths.

End FileImport.

(** ** File names shown for a clip *)

Module FileName.

(** The separators of [/[/\\]/]: slash and backslash. *)
Definition isSeparator (c : ascii) : bool :=
  (Ascii.eqb c "/" || Ascii.eqb c "\")%char.

(** [path.split(/[/\\]/)]: the pieces between separators, at least one. *)
Fixpoint split (path : string) : list string :=
  match path with
  | EmptyString => [EmptyString]
  | String c rest =>
      if isSeparator c then EmptyString :: split rest
      else match split rest with
           | piece :: pieces => String c piece :: pieces
           | [] => [String c EmptyString]
           end
  end.

(** [.pop()]: the last piece. *)
Definition pop (pieces : list string) : option string :=
  match pieces with
  | [] => None
  | piece :: rest => Some (List.last rest piece)
  end.

(** [clip.source_file.split(/[/\\]/).pop()], the label of a clip's box
    and of the player's overlay; [?? "Unknown"] in the overlay. *)
Definition fileName (source_file : string) : string :=
  match pop (split source_file) with
  | Some name => name
  | None => "Unknown"
  end.

Fixpoint hasSeparator (s : string) : bool :=
  match s with
  | EmptyString => false
  | String c rest => isSeparator c || hasSeparator rest
  end.

End FileName.

(** ** A restart at the end of the timeline, step by step *)

Module Restart.
Import VideoPlayer.

(** Paused at 3.95 on the one clip [0, 4), the element at 3.95. *)
Definition paused : State :=
  mkState (Some (mkVideo (Scenario.assetUrl "/media/one.mp4") 3.95 true))
          None (Some (id Scenario.only4)) None 0.

(** The render after [onPlayingChange(true)]: the intent is set, the
    snapshot that answers the seek to [0] has not arrived. *)
Definition afterToggle : Props :=
  mkProps [Scenario.only4] 3.95 (App.setIsPlaying true false).

(** The playback-loop effect of that render, then the first tick. *)
Definition looping : State := exec (playbackLoopEffect afterToggle) paused.
Definition ticked : State := exec (updatePlayhead afterToggle) looping.

(** The snapshots that answer the two seeks, in the order of the seeks. *)
Definition atStart : Props :=
  App.videoPlayerProps (App.onStateUpdate (Scenario.snapshot [Scenario.only4] 0) None) true.
Definition backAtEnd : Props :=
  App.videoPlayerProps
    (App.onStateUpdate (Scenario.snapshot [Scenario.only4] (start Scenario.only4 + 3.95))
                       (Some (Scenario.snapshot [Scenario.only4] 0))) true.

Definition commit (previous p : Props) : M unit :=
  bind (clipChangeEffect Scenario.assetUrl p) (fun _ => driftSyncHook (Some previous) p).

Definition rewound : State := exec (commit afterToggle atStart) ticked.
Definition final : State := exec (commit atStart backAtEnd) rewound.

End Restart.

(** * Properties *)

(** ** Comparisons of numbers *)

Lemma le_true_iff (a b : Q) : JS.le a b = true <-> a <= b.
Proof. unfold JS.le. apply Qle_bool_iff. Qed.

Lemma lt_true_iff (a b : Q) : JS.lt a b = true <-> a < b.
Proof.
  unfold JS.lt. rewrite negb_true_iff, <- not_true_iff_false, Qle_bool_iff.
  split; [apply Qnot_le_lt | apply Qlt_not_le].
Qed.

Lemma le_false_iff (a b : Q) : JS.le a b = false <-> b < a.
Proof.
  rewrite <- not_true_iff_false, le_true_iff.
  split; [apply Qnot_le_lt | apply Qlt_not_le].
Qed.

Lemma lt_false_iff (a b : Q) : JS.lt a b = false <-> b <= a.
Proof.
  rewrite <- not_true_iff_false, lt_true_iff.
  split; [apply Qnot_lt_le | apply Qle_not_lt].
Qed.

Lemma ge_true_iff (a b : Q) : JS.ge a b = true <-> b <= a.
Proof. unfold JS.ge. apply le_true_iff. Qed.

Lemma gt_true_iff (a b : Q) : JS.gt a b = true <-> b < a.
Proof. unfold JS.gt. apply lt_true_iff. Qed.

Lemma gt_false_iff (a b : Q) : JS.gt a b = false <-> a <= b.
Proof. unfold JS.gt. apply lt_false_iff. Qed.

Lemma byStart_le (a b : Clip) : JS.le (byStart a b) 0 = true <-> start a <= start b.
Proof. rewrite le_true_iff. unfold byStart. split; intro H; lra. Qed.

Lemma byStart_gt (a b : Clip) : JS.le (byStart a b) 0 = false <-> start b < start a.
Proof. rewrite le_false_iff. unfold byStart. split; intro H; lra. Qed.

Lemma covers_iff (c : Clip) (t : Q) :
  covers c t = true <-> start c <= t /\ t < start c + duration c.
Proof. unfold covers. now rewrite andb_true_iff, le_true_iff, lt_true_iff. Qed.

Lemma covers_false_iff (c : Clip) (t : Q) :
  covers c t = false <-> ~ (start c <= t /\ t < start c + duration c).
Proof. now rewrite <- covers_iff, not_true_iff_false. Qed.

(** Resolution depends on the value of the time only. *)
Lemma covers_time_eq (c : Clip) (t t' : Q) : t == t' -> covers c t = covers c t'.
Proof.
  intro E. destruct (covers c t') eqn:H.
  - apply covers_iff in H. apply covers_iff. rewrite E. exact H.
  - apply covers_false_iff in H. apply covers_false_iff. rewrite E. exact H.
Qed.

(** ** The sort *)

Lemma insert_perm {A} (f : A -> A -> Q) (x : A) (l : list A) :
  Permutation (x :: l) (JS.insert f x l).
Proof.
  induction l as [|y l IH]; simpl.
  - apply Permutation_refl.
  - destruct (JS.le (f x y) 0).
    + apply Permutation_refl.
    + eapply perm_trans; [apply perm_swap|]. now apply perm_skip.
Qed.

Lemma sort_perm {A} (f : A -> A -> Q) (l : list A) : Permutation l (JS.sort f l).
Proof.
  induction l as [|x l IH]; simpl.
  - apply perm_nil.
  - eapply perm_trans; [apply perm_skip, IH | apply insert_perm].
Qed.

Lemma sort_In {A} (f : A -> A -> Q) (l : list A) (x : A) : In x (JS.sort f l) <-> In x l.
Proof.
  split; apply Permutation_in; [apply Permutation_sym|]; apply sort_perm.
Qed.

Lemma insert_sorted (x : Clip) (l : list Clip) :
  StronglySorted startLe l -> StronglySorted startLe (JS.insert byStart x l).
Proof.
  induction 1 as [|y l Hl IH Hy]; simpl.
  - constructor; constructor.
  - destruct (JS.le (byStart x y) 0) eqn:E.
    + apply byStart_le in E. constructor.
      * now constructor.
      * constructor; [exact E|].
        eapply List.Forall_impl; [|exact Hy]. intros z Hz. unfold startLe in *. lra.
    + apply byStart_gt in E. constructor; [exact IH|].
      eapply Permutation_Forall; [apply insert_perm|].
      constructor; [unfold startLe; lra | exact Hy].
Qed.

Lemma sort_sorted (l : list Clip) : StronglySorted startLe (JS.sort byStart l).
Proof.
  induction l as [|x l IH]; simpl; [constructor | now apply insert_sorted].
Qed.

(** Stability: clips with the same start keep their order. *)
Lemma insert_stable (q : Q) (x : Clip) (l : list Clip) :
  StronglySorted startLe l ->
  List.filter (startsAt q) (JS.insert byStart x l) = List.filter (startsAt q) (x :: l).
Proof.
  induction 1 as [|y l Hl IH Hy]; [reflexivity|].
  cbn [JS.insert]. destruct (JS.le (byStart x y) 0) eqn:E; [reflexivity|].
  apply byStart_gt in E. cbn [List.filter] in *. rewrite IH.
  destruct (startsAt q x) eqn:Ex, (startsAt q y) eqn:Ey; try reflexivity.
  unfold startsAt in *. apply Qeq_bool_iff in Ex, Ey. lra.
Qed.

Lemma sort_stable (q : Q) (l : list Clip) :
  List.filter (startsAt q) (JS.sort byStart l) = List.filter (startsAt q) l.
Proof.
  induction l as [|x l IH]; [reflexivity|].
  cbn [JS.sort]. rewrite insert_stable by apply sort_sorted.
  cbn [List.filter]. now rewrite IH.
Qed.

(** A list sorted by start is determined by its clips at each start, in
    their order: a stable sort has one result, whatever the algorithm. *)
Lemma sorted_filter_nil (q : Q) (x : Clip) (l : list Clip) :
  StronglySorted startLe (x :: l) -> q < start x ->
  List.filter (startsAt q) (x :: l) = [].
Proof.
  intros Hs Hq. apply StronglySorted_inv in Hs as [_ Hx].
  rewrite List.Forall_forall in Hx.
  assert (H : forall y, In y (x :: l) -> startsAt q y = false).
  { intros y Hy. unfold startsAt. apply not_true_iff_false.
    rewrite Qeq_bool_iff. intro E.
    destruct Hy as [<-|Hy]; [lra|]. specialize (Hx y Hy). unfold startLe in Hx. lra. }
  induction (x :: l) as [|y l' IH]; [reflexivity|].
  cbn [List.filter]. rewrite (H y (or_introl eq_refl)).
  apply IH. intros z Hz. apply H. now right.
Qed.

Lemma startsAt_own (x : Clip) : startsAt (start x) x = true.
Proof. unfold startsAt. apply Qeq_bool_iff. reflexivity. Qed.

Lemma sorted_by_filters (l1 l2 : list Clip) :
  StronglySorted startLe l1 -> StronglySorted startLe l2 ->
  (forall q, List.filter (startsAt q) l1 = List.filter (startsAt q) l2) ->
  l1 = l2.
Proof.
  revert l2. induction l1 as [|x l1 IH]; intros [|y l2] H1 H2 Hf.
  - reflexivity.
  - specialize (Hf (start y)). cbn [List.filter] in Hf.
    rewrite startsAt_own in Hf. discriminate.
  - specialize (Hf (start x)). cbn [List.filter] in Hf.
    rewrite startsAt_own in Hf. discriminate.
  - assert (Hxy : x = y).
    { destruct (Q_dec (start x) (start y)) as [[Hlt|Hgt]|Heq].
      - pose proof (Hf (start x)) as F.
        rewrite (sorted_filter_nil _ _ _ H2 Hlt) in F.
        cbn [List.filter] in F. rewrite startsAt_own in F. discriminate.
      - pose proof (Hf (start y)) as F.
        rewrite (sorted_filter_nil _ _ _ H1 Hgt) in F.
        cbn [List.filter] in F. rewrite startsAt_own in F. discriminate.
      - pose proof (Hf (start x)) as F. cbn [List.filter] in F.
        rewrite startsAt_own in F.
        assert (Ey : startsAt (start x) y = true)
          by (unfold startsAt; apply Qeq_bool_iff; lra).
        rewrite Ey in F. now injection F. }
    subst y. f_equal.
    apply StronglySorted_inv in H1 as [H1 _], H2 as [H2 _].
    apply IH; [exact H1 | exact H2|].
    intro q. specialize (Hf q). cbn [List.filter] in Hf.
    destruct (startsAt q x); [now injection Hf | exact Hf].
Qed.

Lemma stable_sort_unique (l sorted : list Clip) :
  StronglySorted startLe sorted ->
  (forall q, List.filter (startsAt q) sorted = List.filter (startsAt q) l) ->
  sorted = JS.sort byStart l.
Proof.
  intros Hs Hf. apply sorted_by_filters; [exact Hs | apply sort_sorted|].
  intro q. now rewrite Hf, sort_stable.
Qed.

(** ** The resolver *)

(** In a list sorted by start, inserting a matching clip [x] changes the
    first match only when [x] starts no later than it. *)
Lemma find_insert (P : Clip -> bool) (x : Clip) (l : list Clip) :
  StronglySorted startLe l ->
  List.find P (JS.insert byStart x l) =
  if P x then earlier x (List.find P l) else List.find P l.
Proof.
  induction 1 as [|y l Hl IH Hy]; cbn [JS.insert List.find].
  - now destruct (P x).
  - destruct (JS.le (byStart x y) 0) eqn:E; cbn [List.find].
    + destruct (P x) eqn:Px; [|reflexivity].
      destruct (P y) eqn:Py; cbn [earlier]; [now rewrite E|].
      destruct (List.find P l) as [z|] eqn:F; [|reflexivity].
      apply find_some in F as [Hz _].
      rewrite List.Forall_forall in Hy. specialize (Hy z Hz).
      apply byStart_le in E. unfold startLe in Hy.
      assert (Hxz : JS.le (byStart x z) 0 = true) by (apply byStart_le; lra).
      cbn [earlier]. now rewrite Hxz.
    + destruct (P y) eqn:Py.
      * destruct (P x); cbn [earlier]; [now rewrite E | reflexivity].
      * exact IH.
Qed.

(** The code's sort-then-scan computes the specification's resolver. *)
Lemma getActiveClip_resolve (clips : list Clip) (t : Q) :
  getActiveClip clips t = resolve clips t.
Proof.
  unfold getActiveClip. cbv zeta.
  induction clips as [|x l IH]; [reflexivity|].
  cbn [JS.sort resolve]. rewrite find_insert by apply sort_sorted.
  now rewrite IH.
Qed.

Lemma getActiveClip_time_eq (clips : list Clip) (t t' : Q) :
  t == t' -> getActiveClip clips t = getActiveClip clips t'.
Proof.
  intro E. rewrite !getActiveClip_resolve.
  induction clips as [|x l IH]; [reflexivity|].
  cbn [resolve]. now rewrite IH, (covers_time_eq x t t' E).
Qed.

Lemma resolve_None (clips : list Clip) (t : Q) :
  resolve clips t = None <-> forall c, In c clips -> covers c t = false.
Proof.
  induction clips as [|x l IH]; cbn [resolve].
  - split; [intros _ c [] | reflexivity].
  - destruct (covers x t) eqn:Cx.
    + split.
      * destruct (resolve l t) as [y|]; cbn [earlier]; [destruct (JS.le _ _)|]; discriminate.
      * intro H. specialize (H x (or_introl eq_refl)). congruence.
    + rewrite IH. split.
      * intros H c [<-|Hc]; [exact Cx | now apply H].
      * intros H c Hc. apply H. now right.
Qed.

(** The clip returned is listed, holds [t], and every clip listed before
    it that holds [t] starts strictly later; every clip that holds [t]
    starts no earlier. *)
Lemma resolve_Some (clips : list Clip) (t : Q) (c : Clip) :
  resolve clips t = Some c ->
  covers c t = true /\
  (forall c', In c' clips -> covers c' t = true -> start c <= start c') /\
  exists before after,
    clips = before ++ c :: after /\
    (forall c', In c' before -> covers c' t = true -> start c < start c').
Proof.
  revert c. induction clips as [|x l IH]; cbn [resolve]; intros c H; [discriminate|].
  destruct (covers x t) eqn:Cx.
  - destruct (resolve l t) as [y|] eqn:R; cbn [earlier] in H.
    + destruct (IH y eq_refl) as (Cy & Hmin & before & after & -> & Hbefore).
      destruct (JS.le (byStart x y) 0) eqn:E; injection H as <-.
      * apply byStart_le in E. split; [exact Cx|]. split.
        -- intros c' [<-|Hc'] Hcov; [lra|]. specialize (Hmin c' Hc' Hcov). lra.
        -- exists [], (before ++ y :: after). split; [reflexivity|]. intros c' [].
      * apply byStart_gt in E. split; [exact Cy|]. split.
        -- intros c' [<-|Hc'] Hcov; [lra | now apply Hmin].
        -- exists (x :: before), after. split; [reflexivity|].
           intros c' [<-|Hc'] Hcov; [exact E | now apply Hbefore].
    + injection H as <-. split; [exact Cx|]. split.
      * intros c' [<-|Hc'] Hcov; [lra|].
        rewrite resolve_None in R. rewrite (R c' Hc') in Hcov. discriminate.
      * exists [], l. split; [reflexivity|]. intros c' [].
  - destruct (IH c H) as (Cc & Hmin & before & after & -> & Hbefore).
    split; [exact Cc|]. split.
    + intros c' [<-|Hc'] Hcov; [congruence | now apply Hmin].
    + exists (x :: before), after. split; [reflexivity|].
      intros c' [<-|Hc'] Hcov; [congruence | now apply Hbefore].
Qed.

Lemma resolve_In (clips : list Clip) (t : Q) (c : Clip) :
  resolve clips t = Some c -> In c clips.
Proof.
  intro H. destruct (resolve_Some _ _ _ H) as (_ & _ & before & after & -> & _).
  apply in_elt.
Qed.

(** In a list without overlap a time is held by at most one entry. *)
Lemma NoOverlap_unique (clips : list Clip) (t : Q) (a b : Clip) :
  NoOverlap clips -> In a clips -> In b clips ->
  covers a t = true -> covers b t = true -> a = b.
Proof.
  intros H Ha Hb Ca Cb. apply covers_iff in Ca, Cb.
  induction H as [|x l Hx Hl IH]; [destruct Ha|].
  rewrite List.Forall_forall in Hx.
  destruct Ha as [<-|Ha], Hb as [<-|Hb]; [reflexivity| | |now apply IH].
  - destruct (Hx b Hb) as [D|D]; unfold clipEnd in D; lra.
  - destruct (Hx a Ha) as [D|D]; unfold clipEnd in D; lra.
Qed.

Lemma resolve_NoOverlap (clips : list Clip) (t : Q) (c : Clip) :
  NoOverlap clips -> In c clips -> covers c t = true -> resolve clips t = Some c.
Proof.
  intros H Hc Cc. destruct (resolve clips t) as [y|] eqn:R.
  - f_equal. apply (NoOverlap_unique clips t); auto.
    + eapply resolve_In; eauto.
    + now apply resolve_Some in R.
  - rewrite resolve_None in R. rewrite (R c Hc) in Cc. discriminate.
Qed.

Lemma find_first {A} (P : A -> bool) (l : list A) (c : A) :
  List.find P l = Some c <->
  exists before after,
    l = before ++ c :: after /\ P c = true /\ (forall x, In x before -> P x = false).
Proof.
  induction l as [|y l IH]; cbn [List.find].
  - split; [discriminate|]. intros (before & after & E & _). now destruct before.
  - destruct (P y) eqn:Py.
    + split.
      * intros [= <-]. exists [], l. repeat split; [exact Py | intros x []].
      * intros ([|z before] & after & E & Pc & Hb); injection E as -> E.
        -- reflexivity.
        -- specialize (Hb z (or_introl eq_refl)). congruence.
    + rewrite IH. split.
      * intros (before & after & -> & Pc & Hb). exists (y :: before), after.
        repeat split; [exact Pc|]. intros x [<-|Hx]; [exact Py | now apply Hb].
      * intros ([|z before] & after & E & Pc & Hb); injection E as -> E.
        -- congruence.
        -- exists before, after. repeat split; [exact E | exact Pc|].
           intros x Hx. apply Hb. now right.
Qed.

(** C1.  For every clip list and every time [t], [getActiveClip] returns
    [None] exactly when no clip's half-open interval
    [[start, start + duration)] contains [t]; otherwise it returns the first
    clip, in ascending order of start, whose interval contains [t].  The
    order is a stable ascending rearrangement of the list, and the clip
    returned starts no later than any other clip that contains [t]. *)
Theorem getActiveClip_first_by_start (clips : list Clip) (t : Q) :
  exists sorted,
    Permutation clips sorted /\
    StronglySorted startLe sorted /\
    (forall q, List.filter (startsAt q) sorted = List.filter (startsAt q) clips) /\
    (getActiveClip clips t = None <-> forall c, In c clips -> ~ inInterval c t) /\
    (forall c, getActiveClip clips t = Some c <->
       exists before after,
         sorted = before ++ c :: after /\ inInterval c t /\
         (forall c', In c' before -> ~ inInterval c' t)) /\
    (forall c, getActiveClip clips t = Some c ->
       In c clips /\
       forall c', In c' clips -> inInterval c' t -> start c <= start c').
Proof.
  exists (JS.sort byStart clips).
  split; [apply sort_perm|]. split; [apply sort_sorted|].
  split; [intro q; apply sort_stable|]. split; [|split].
  - rewrite getActiveClip_resolve, resolve_None.
    split; intros H c Hc.
    + apply covers_false_iff. now apply H.
    + apply covers_false_iff. now apply H.
  - intro c. unfold getActiveClip. cbv zeta. rewrite find_first.
    split; intros (before & after & E & Pc & Hb); exists before, after;
      (split; [exact E|]); split.
    + now apply covers_iff.
    + intros c' Hc'. apply covers_false_iff. now apply Hb.
    + now apply covers_iff.
    + intros c' Hc'. apply covers_false_iff. now apply Hb.
  - intros c H. rewrite getActiveClip_resolve in H. split.
    + eapply resolve_In; eauto.
    + intros c' Hc' Hin. apply resolve_Some in H as (_ & Hmin & _).
      apply Hmin; [exact Hc' | now apply covers_iff].
Qed.

(** C8.  For two abutting clips [a] and [b], [a.start + a.duration =
    b.start], resolving at the shared boundary [b.start] returns [b] and
    never [a], in either listing order; no instant is matched by both; and
    [b] is returned in every clip list without overlap that holds it.  A
    clip has a positive duration. *)
Theorem abutting_boundary_selects_later (a b : Clip) :
  0 < duration b ->
  clipEnd a == start b ->
  getActiveClip [a; b] (start b) = Some b /\
  getActiveClip [b; a] (start b) = Some b /\
  (forall clips, getActiveClip clips (start b) <> Some a) /\
  (forall t, covers a t && covers b t = false) /\
  (forall clips, NoOverlap clips -> In b clips ->
                 getActiveClip clips (start b) = Some b).
Proof.
  intros Hd Hab. unfold clipEnd in Hab.
  assert (Ca : covers a (start b) = false) by (apply covers_false_iff; lra).
  assert (Cb : covers b (start b) = true) by (apply covers_iff; lra).
  repeat split.
  - rewrite getActiveClip_resolve. cbn [resolve]. now rewrite Ca, Cb.
  - rewrite getActiveClip_resolve. cbn [resolve]. now rewrite Ca, Cb.
  - intros clips H. rewrite getActiveClip_resolve in H.
    apply resolve_Some in H as (H & _). congruence.
  - intro t. apply andb_false_iff.
    destruct (covers a t) eqn:Cat; [right | now left].
    apply covers_iff in Cat. apply covers_false_iff. lra.
  - intros clips Hno Hb. rewrite getActiveClip_resolve.
    now apply resolve_NoOverlap.
Qed.

Lemma abutting_boundary_selects_later_witness :
  getActiveClip [Scenario.first5; Scenario.next3] (start Scenario.next3) = Some Scenario.next3 /\
  getActiveClip [Scenario.next3; Scenario.first5] (start Scenario.next3) = Some Scenario.next3.
Proof.
  destruct (abutting_boundary_selects_later Scenario.first5 Scenario.next3) as (H1 & H2 & _).
  - reflexivity.
  - reflexivity.
  - split; [exact H1 | exact H2].
Defined.

(** ** The player's effects *)

Import VideoPlayer.
Local Open Scope player_scope.

(** Unfolding of the monad, leaving numbers alone. *)
Ltac run :=
  cbv [trace exec bind ret gets modify emit skip
       setCurrentClipId setError set_animationFrameRef update_video
       set_src set_currentTime play pause request_frame cancel_pending_frame
       fst snd app option_map];
  cbn [videoRef error currentClipId animationFrameRef lastFrameHandle].

Lemma activeClip_inInterval (p : Props) (clip : Clip) :
  activeClip p = Some clip ->
  In clip (clips p) /\ start clip <= playheadTime p < start clip + duration clip.
Proof.
  unfold activeClip. rewrite getActiveClip_resolve. intro H. split.
  - eapply resolve_In; eauto.
  - apply resolve_Some in H as (H & _). now apply covers_iff.
Qed.

Lemma id_differs_true (clipId : string) (current : option string) :
  current <> Some clipId -> id_differs clipId current = true.
Proof.
  destruct current as [c|]; cbn; [|reflexivity].
  intro H. apply negb_true_iff, String.eqb_neq. congruence.
Qed.

Lemma id_differs_same (clipId : string) : id_differs clipId (Some clipId) = false.
Proof. cbn. now rewrite String.eqb_refl. Qed.

(** Bound to the active clip already, the clip-change effect does nothing. *)
Lemma clipChangeEffect_same (convertFileSrc : string -> string)
      (p : Props) (s : State) (clip : Clip) :
  activeClip p = Some clip ->
  currentClipId s = Some (id clip) ->
  clipChangeEffect convertFileSrc p s = (tt, s, []).
Proof.
  intros Ha Hc. unfold clipChangeEffect. rewrite Ha.
  cbv [bind gets]. rewrite Hc, id_differs_same. reflexivity.
Qed.


Lemma clamp_inside (x lo hi : Q) : lo <= x -> x <= hi -> clamp x lo hi == x.
Proof.
  intros H1 H2. unfold clamp.
  rewrite (Q.min_l x hi H2). now apply Q.max_r.
Qed.

(** The clip-change effect on a mounted element bound to another clip. *)
Lemma clipChangeEffect_rebind (convertFileSrc : string -> string)
      (p : Props) (s : State) (clip : Clip) (v : HTMLVideoElement) :
  activeClip p = Some clip ->
  currentClipId s <> Some (id clip) ->
  videoRef s = Some v ->
  clipChangeEffect convertFileSrc p s =
  (tt,
   mkState (Some (mkVideo (convertFileSrc (source_file clip))
                          (JS.Math_max 0 (playheadTime p - start clip))
                          (if isPlaying p then false else paused v)))
           None (Some (id clip)) (animationFrameRef s) (lastFrameHandle s),
   [video_set_src (convertFileSrc (source_file clip));
    video_set_currentTime (JS.Math_max 0 (playheadTime p - start clip))] ++
   (if isPlaying p then [video_play] else [])).
Proof.
  intros Ha Hc Hv. unfold clipChangeEffect. rewrite Ha. cbv [bind gets].
  rewrite (id_differs_true _ _ Hc). run. rewrite Hv.
  destruct (isPlaying p); reflexivity.
Qed.



(** ** The tick *)

(** A tick on a mounted element whose time has reached the clip's
    duration, when another clip is found just past the clip's end. *)
Lemma updatePlayhead_advance (p : Props) (s : State) (clip nextClip : Clip)
      (v : HTMLVideoElement) :
  videoRef s = Some v ->
  activeClip p = Some clip ->
  isPlaying p = true ->
  duration clip <= currentTime v ->
  getActiveClip (clips p) (start clip + duration clip + 0.01) = Some nextClip ->
  updatePlayhead p s =
  (tt,
   mkState (videoRef s) (error s) (currentClipId s)
           (Some (S (lastFrameHandle s))) (S (lastFrameHandle s)),
   [onPlayheadChange (start nextClip); requestAnimationFrame (S (lastFrameHandle s))]).
Proof.
  intros Hv Ha Hp Hd Hn. apply ge_true_iff in Hd.
  unfold updatePlayhead. cbv [bind gets]. rewrite Hv, Ha, Hp, Hd, Hn.
  run. now rewrite ?Hv.
Qed.

(** The same tick when no clip is found there. *)
Lemma updatePlayhead_end (p : Props) (s : State) (clip : Clip)
      (v : HTMLVideoElement) :
  videoRef s = Some v ->
  activeClip p = Some clip ->
  isPlaying p = true ->
  duration clip <= currentTime v ->
  getActiveClip (clips p) (start clip + duration clip + 0.01) = None ->
  updatePlayhead p s = (tt, s, [onPlayingChange false]).
Proof.
  intros Hv Ha Hp Hd Hn. apply ge_true_iff in Hd.
  unfold updatePlayhead. cbv [bind gets]. rewrite Hv, Ha, Hp, Hd, Hn.
  run. now rewrite ?Hv.
Qed.

(** While [isPlaying] is false nothing in the component requests a frame. *)
Lemma no_frame_request_while_paused (convertFileSrc : string -> string)
      (p : Props) (s : State) (h : nat) :
  isPlaying p = false ->
  ~ In (requestAnimationFrame h)
       (trace (clipChangeEffect convertFileSrc p) s ++
        trace (driftSyncEffect p) s ++
        trace (updatePlayhead p) s ++
        trace (playbackLoopEffect p) s ++
        trace playbackLoopCleanup s ++
        trace (togglePlay p) s).
Proof.
  intro Hp. rewrite !in_app_iff.
  intros [H|[H|[H|[H|[H|H]]]]]; revert H.
  - unfold clipChangeEffect, trace. cbv [bind gets]. rewrite Hp.
    destruct (activeClip p) as [clip|]; [|cbn; tauto].
    destruct (id_differs (id clip) (currentClipId s)); [|cbn; tauto].
    run. destruct (videoRef s); cbn [In]; intuition discriminate.
  - unfold driftSyncEffect, trace. cbv [bind gets].
    destruct (activeClip p) as [clip|], (videoRef s) as [v|]; try (cbn; tauto).
    destruct (JS.gt _ _); run; cbn [In]; intuition discriminate.
  - unfold updatePlayhead, trace. cbv [bind gets]. rewrite Hp.
    destruct (videoRef s), (activeClip p); cbn; tauto.
  - unfold playbackLoopEffect, trace. cbv [bind gets]. rewrite Hp.
    destruct (videoRef s) as [v|] eqn:Hv; [|cbn; tauto].
    run. rewrite Hv. cbv [option_map].
    destruct (animationFrameRef s) as [[|n]|]; cbn [In]; intuition discriminate.
  - unfold playbackLoopCleanup, trace. run.
    destruct (animationFrameRef s) as [[|n]|]; cbn [In]; intuition discriminate.
  - unfold togglePlay, trace. rewrite Hp.
    destruct (length (clips p) =? 0)%nat; [cbn; tauto|].
    destruct (negb false && _); run; cbn [In]; intuition discriminate.
Qed.

(** C5.  On a tick where the element's time is at or past the active
    clip's duration and no clip is found at
    [clip.start + clip.duration + 0.01], the tick calls
    [onPlayingChange(false)] and requests no frame; and while [isPlaying]
    stays false no effect or handler of the component requests one. *)
Theorem tick_at_end_of_timeline_stops
        (p : Props) (s : State) (clip : Clip) (v : HTMLVideoElement) :
  videoRef s = Some v ->
  activeClip p = Some clip ->
  isPlaying p = true ->
  duration clip <= currentTime v ->
  getActiveClip (clips p) (start clip + duration clip + 0.01) = None ->
  trace (updatePlayhead p) s = [onPlayingChange false] /\
  exec (updatePlayhead p) s = s /\
  App.setIsPlaying false (isPlaying p) = false /\
  (forall convertFileSrc p' s' h,
     isPlaying p' = false ->
     ~ In (requestAnimationFrame h)
          (trace (clipChangeEffect convertFileSrc p') s' ++
           trace (driftSyncEffect p') s' ++
           trace (updatePlayhead p') s' ++
           trace (playbackLoopEffect p') s' ++
           trace playbackLoopCleanup s' ++
           trace (togglePlay p') s')).
Proof.
  intros Hv Ha Hp Hd Hn.
  pose proof (updatePlayhead_end p s clip v Hv Ha Hp Hd Hn) as Hrun.
  unfold trace, exec. rewrite Hrun. repeat split.
  intros convertFileSrc p' s' h Hp'.
  now apply no_frame_request_while_paused.
Qed.

Lemma tick_at_end_of_timeline_stops_witness :
  trace (updatePlayhead (mkProps Scenario.abutting 7.9 true))
        (Scenario.playing Scenario.next3 3.02) = [onPlayingChange false].
Proof.
  apply (tick_at_end_of_timeline_stops
           (mkProps Scenario.abutting 7.9 true)
           (Scenario.playing Scenario.next3 3.02) Scenario.next3
           (mkVideo (Scenario.assetUrl "/media/two.mp4") 3.02 false)).
  - reflexivity.
  - reflexivity.
  - reflexivity.
  - vm_compute. discriminate.
  - reflexivity.
Defined.

(** ** The play/pause toggle *)

Lemma fold_max_spec (l : list Clip) (acc : Q) :
  let total := fold_left (fun max c => JS.Math_max max (start c + duration c)) l acc in
  acc <= total /\
  (forall c, In c l -> clipEnd c <= total) /\
  (total == acc \/ exists c, In c l /\ total == clipEnd c).
Proof.
  revert acc. induction l as [|x l IH]; intro acc; cbn [fold_left].
  - cbv zeta. split; [lra|]. split; [intros c []|]. left. reflexivity.
  - specialize (IH (JS.Math_max acc (start x + duration x))).
    cbv zeta in *. destruct IH as (Hacc & Hall & Hex).
    unfold JS.Math_max in *.
    pose proof (Q.le_max_l acc (start x + duration x)) as Hl.
    pose proof (Q.le_max_r acc (start x + duration x)) as Hr.
    split; [lra|]. split.
    + intros c [<-|Hc]; [unfold clipEnd; lra | now apply Hall].
    + destruct Hex as [E|(c & Hc & E)].
      * destruct (Q.max_spec acc (start x + duration x)) as [[_ M]|[_ M]].
        -- right. exists x. split; [now left|]. unfold clipEnd. now rewrite E, M.
        -- left. now rewrite E, M.
      * right. exists c. split; [now right | exact E].
Qed.

(** [totalDuration] is the largest clip end, and [0] without clips. *)
Lemma totalDuration_max (clips : list Clip) :
  0 <= totalDuration clips /\
  (forall c, In c clips -> clipEnd c <= totalDuration clips) /\
  (totalDuration clips == 0 \/ exists c, In c clips /\ totalDuration clips == clipEnd c).
Proof. apply (fold_max_spec clips 0). Qed.



(** Away from the end the toggle only flips the intent. *)
Lemma togglePlay_flips (p : Props) (s : State) :
  clips p <> [] ->
  (isPlaying p = true \/ playheadTime p < totalDuration (clips p) - 0.1) ->
  trace (togglePlay p) s = [onPlayingChange (negb (isPlaying p))].
Proof.
  intros Hne H. unfold togglePlay.
  destruct (clips p) as [|c l] eqn:E; [congruence|]. cbn [length Nat.eqb].
  destruct H as [->|H]; [reflexivity|].
  apply (proj2 (le_false_iff _ _)) in H. unfold JS.ge.
  rewrite H, andb_false_r. reflexivity.
Qed.

(** ** Advancing to the next clip *)

Lemma NoDup_id_inj (l : list Clip) (a b : Clip) :
  List.NoDup (map id l) -> In a l -> In b l -> id a = id b -> a = b.
Proof.
  induction l as [|x l IH]; cbn [map]; intros Hn Ha Hb E; [destruct Ha|].
  apply List.NoDup_cons_iff in Hn as [Hx Hn].
  destruct Ha as [<-|Ha], Hb as [<-|Hb]; [reflexivity| | |now apply IH].
  - exfalso. apply Hx. rewrite E. now apply in_map.
  - exfalso. apply Hx. rewrite <- E. now apply in_map.
Qed.

(** The clip found just past the end of [clip] is another clip, and it
    holds its own start. *)
Lemma next_clip_facts (clips : list Clip) (clip nextClip : Clip) :
  getActiveClip clips (start clip + duration clip + 0.01) = Some nextClip ->
  In nextClip clips /\ nextClip <> clip /\ covers nextClip (start nextClip) = true.
Proof.
  rewrite getActiveClip_resolve. intro H. split; [eapply resolve_In; eauto|].
  apply resolve_Some in H as (H & _). apply covers_iff in H. split.
  - intros ->. lra.
  - apply covers_iff. lra.
Qed.

(** C4, as the code has it.  On a tick where the element's time is at or
    past the active clip's duration, the tick resolves the clip at
    [clip.start + clip.duration + 0.01]; when one is found it calls
    [onPlayheadChange(nextClip.start)] and requests the next frame.  When
    the clips do not overlap and their identifiers are distinct, the
    snapshot that reports the playhead at that start makes the clip-change
    effect bind the element to the next clip at offset [0] and call
    [play]: no seek by the user is needed. *)
Theorem tick_advances_to_next_clip
        (convertFileSrc : string -> string)
        (p : Props) (s : State) (clip nextClip : Clip) (v : HTMLVideoElement) :
  videoRef s = Some v ->
  activeClip p = Some clip ->
  isPlaying p = true ->
  duration clip <= currentTime v ->
  getActiveClip (clips p) (start clip + duration clip + 0.01) = Some nextClip ->
  NoOverlap (clips p) ->
  List.NoDup (map id (clips p)) ->
  trace (updatePlayhead p) s =
    [onPlayheadChange (start nextClip); requestAnimationFrame (S (lastFrameHandle s))] /\
  animationFrameRef (exec (updatePlayhead p) s) = Some (S (lastFrameHandle s)) /\
  forall (payload : TimelineState) (previous : option TimelineState)
         (s1 : State) (v1 : HTMLVideoElement),
    ts_clips payload = clips p ->
    playhead_time payload == start nextClip ->
    videoRef s1 = Some v1 ->
    currentClipId s1 = Some (id clip) ->
    let p' := App.videoPlayerProps (App.onStateUpdate payload previous) true in
    activeClip p' = Some nextClip /\
    exists offset,
      offset == 0 /\
      trace (clipChangeEffect convertFileSrc p') s1 =
        [video_set_src (convertFileSrc (source_file nextClip));
         video_set_currentTime offset; video_play] /\
      currentClipId (exec (clipChangeEffect convertFileSrc p') s1) = Some (id nextClip).
Proof.
  intros Hv Ha Hp Hd Hn Ho Hu.
  pose proof (updatePlayhead_advance p s clip nextClip v Hv Ha Hp Hd Hn) as Hrun.
  split; [unfold trace; now rewrite Hrun|].
  split; [unfold exec; now rewrite Hrun|].
  intros payload previous s1 v1 Hclips Hpt Hv1 Hc1 p'.
  destruct (activeClip_inInterval p clip Ha) as (Hin & _).
  destruct (next_clip_facts _ _ _ Hn) as (Hin' & Hne & Hcov).
  assert (Ha' : activeClip p' = Some nextClip).
  { unfold p', App.videoPlayerProps, App.onStateUpdate, activeClip.
    cbn [clips playheadTime]. rewrite Hclips.
    rewrite (getActiveClip_time_eq _ _ _ Hpt), getActiveClip_resolve.
    now apply resolve_NoOverlap. }
  assert (Hc' : currentClipId s1 <> Some (id nextClip)).
  { rewrite Hc1. intros [= E]. apply Hne. symmetry.
    now apply (NoDup_id_inj (clips p)). }
  split; [exact Ha'|].
  pose proof (clipChangeEffect_rebind convertFileSrc p' s1 nextClip v1 Ha' Hc' Hv1) as Hbind.
  exists (JS.Math_max 0 (playheadTime p' - start nextClip)). split; [|split].
  - unfold p', App.videoPlayerProps, App.onStateUpdate. cbn [playheadTime].
    unfold JS.Math_max. rewrite Hpt. apply Q.max_l. lra.
  - unfold trace. rewrite Hbind. reflexivity.
  - unfold exec. rewrite Hbind. reflexivity.
Qed.

Lemma abutting_NoOverlap : NoOverlap Scenario.abutting.
Proof.
  apply FOP_cons.
  - apply List.Forall_cons; [|apply List.Forall_nil].
    left. vm_compute. discriminate.
  - apply FOP_cons; [apply List.Forall_nil | apply FOP_nil].
Qed.

Lemma abutting_NoDup : List.NoDup (map id Scenario.abutting).
Proof.
  repeat constructor; cbn; intuition discriminate.
Qed.

(** Scenario B: the element reports 5.02 on the first clip; the resolver
    at 5.01 gives the second clip and the tick asks for its start. *)
Lemma tick_advances_to_next_clip_witness :
  trace (updatePlayhead (mkProps Scenario.abutting 4.99 true))
        (Scenario.playing Scenario.first5 5.02) =
  [onPlayheadChange (start Scenario.next3); requestAnimationFrame 1].
Proof.
  apply (tick_advances_to_next_clip
           Scenario.assetUrl (mkProps Scenario.abutting 4.99 true)
           (Scenario.playing Scenario.first5 5.02) Scenario.first5 Scenario.next3
           (mkVideo (Scenario.assetUrl "/media/one.mp4") 5.02 false)).
  - reflexivity.
  - reflexivity.
  - reflexivity.
  - vm_compute. discriminate.
  - reflexivity.
  - exact abutting_NoOverlap.
  - exact abutting_NoDup.
Defined.

(** With the overlapping clips [0, 5) and [3, 10), the tick at the end of
    the first finds the second and asks for its start, 3; resolved at 3
    the active clip is the first again, so the element stays bound to the
    first clip and the second is never bound. *)
Lemma tick_overlap_never_binds_next_clip :
  getActiveClip Scenario.overlapping
                (start Scenario.under + duration Scenario.under + 0.01) = Some Scenario.over /\
  trace (updatePlayhead (mkProps Scenario.overlapping 4.99 true))
        (Scenario.playing Scenario.under 5) =
    [onPlayheadChange (start Scenario.over); requestAnimationFrame 1] /\
  activeClip (App.videoPlayerProps
                (App.onStateUpdate
                   (Scenario.snapshot Scenario.overlapping (start Scenario.over)) None)
                true) = Some Scenario.under /\
  trace (clipChangeEffect Scenario.assetUrl
           (App.videoPlayerProps
              (App.onStateUpdate
                 (Scenario.snapshot Scenario.overlapping (start Scenario.over)) None)
              true))
        (exec (updatePlayhead (mkProps Scenario.overlapping 4.99 true))
              (Scenario.playing Scenario.under 5)) = [] /\
  currentClipId
    (exec (clipChangeEffect Scenario.assetUrl
             (App.videoPlayerProps
                (App.onStateUpdate
                   (Scenario.snapshot Scenario.overlapping (start Scenario.over)) None)
                true))
          (exec (updatePlayhead (mkProps Scenario.overlapping 4.99 true))
                (Scenario.playing Scenario.under 5))) <> Some (id Scenario.over).
Proof.
  repeat split; try reflexivity. vm_compute. discriminate.
Qed.

(** ** Pixels and seconds *)

Import Timeline.

Lemma or_zero_eq (x : Q) : JS.or_zero x == x.
Proof.
  unfold JS.or_zero. destruct (Qeq_bool x 0) eqn:E; [|reflexivity].
  apply Qeq_bool_iff in E. now rewrite E.
Qed.

Lemma clamp_bounds (x hi : Q) : 0 <= hi -> 0 <= clamp x 0 hi /\ clamp x 0 hi <= hi.
Proof.
  intro H. unfold clamp.
  destruct (Q.max_spec 0 (Qmin x hi)) as [[? E1]|[? E1]];
    destruct (Q.min_spec x hi) as [[? E2]|[? E2]]; split; lra.
Qed.

Lemma clamp_hi_eq (x hi hi' : Q) : hi == hi' -> clamp x 0 hi == clamp x 0 hi'.
Proof.
  intro E. unfold clamp.
  destruct (Q.max_spec 0 (Qmin x hi)) as [[? E1]|[? E1]];
    destruct (Q.max_spec 0 (Qmin x hi')) as [[? E2]|[? E2]];
    destruct (Q.min_spec x hi) as [[? E3]|[? E3]];
    destruct (Q.min_spec x hi') as [[? E4]|[? E4]]; lra.
Qed.

Lemma pixelToTime_clamp (ts : TimelineState) (x : Q) :
  pixelToTime (Some ts) x == clamp (x / PIXELS_PER_SECOND) 0 (ts_duration ts).
Proof.
  unfold pixelToTime, maxTime, JS.Math_max, JS.Math_min. cbv zeta.
  apply (clamp_hi_eq (x / PIXELS_PER_SECOND)). apply or_zero_eq.
Qed.

(** C7.  For every [t] in [[0, duration]], the pixel of [t] maps back to
    [t]: [pixelToTime (timeToPixel t) == t], where [timeToPixel t] is
    [t * 50] and [pixelToTime x] is [x / 50] clamped into [[0, duration]],
    over the rationals. *)
Theorem pixelToTime_timeToPixel (ts : TimelineState) (t : Q) :
  0 <= t ->
  t <= ts_duration ts ->
  PIXELS_PER_SECOND = 50 /\
  timeToPixel t == t * 50 /\
  (forall x, pixelToTime (Some ts) x == clamp (x / 50) 0 (ts_duration ts)) /\
  pixelToTime (Some ts) (timeToPixel t) == t.
Proof.
  intros H0 H1. split; [reflexivity|]. split; [reflexivity|].
  split; [intro x; apply pixelToTime_clamp|].
  rewrite pixelToTime_clamp.
  assert (E : timeToPixel t / PIXELS_PER_SECOND == t).
  { unfold timeToPixel, PIXELS_PER_SECOND. field. }
  rewrite <- E at 2. apply clamp_inside; rewrite E; assumption.
Qed.

Lemma pixelToTime_timeToPixel_witness :
  pixelToTime (Some (Scenario.snapshot Scenario.abutting 0)) (timeToPixel 6.5) == 6.5.
Proof.
  apply (pixelToTime_timeToPixel (Scenario.snapshot Scenario.abutting 0) 6.5).
  - vm_compute. discriminate.
  - vm_compute. discriminate.
Defined.

(** C9.  For every pointer position, the click handler issues one seek,
    with the time [x / 50] clamped into [[0, duration]], whatever the
    position; the seek reaches the backend and [seekTo] returns normally
    even when the backend rejects it. *)
Theorem handleTimelineClick_clamps
        (seek_timeline : Q -> App.Completion unit)
        (ts : TimelineState) (e : MouseEvent) :
  0 <= ts_duration ts ->
  exists time,
    handleTimelineClick (Some ts) e = [onSeek time] /\
    time == clamp ((clientX e - rect_left e + scrollLeft e) / 50) 0 (ts_duration ts) /\
    0 <= time /\ time <= ts_duration ts /\
    fst (App.onTimelineEvent seek_timeline (onSeek time)) = App.Returned tt /\
    In (App.invoke_seek_timeline time)
       (snd (App.onTimelineEvent seek_timeline (onSeek time))).
Proof.
  intro Hd.
  exists (pixelToTime (Some ts) (clientX e - rect_left e + scrollLeft e)).
  split; [reflexivity|].
  pose proof (pixelToTime_clamp ts (clientX e - rect_left e + scrollLeft e)) as E.
  unfold PIXELS_PER_SECOND in E.
  destruct (clamp_bounds ((clientX e - rect_left e + scrollLeft e) / 50)
                         (ts_duration ts) Hd) as [Hlo Hhi].
  split; [exact E|]. split; [now rewrite E|]. split; [now rewrite E|].
  unfold App.onTimelineEvent, App.seekTo.
  destruct (seek_timeline _); cbn [fst snd In]; auto.
Qed.

(** A click 1000 pixels past the left edge of an 8-second timeline seeks
    to 8; a click left of the surface seeks to 0. *)
Lemma handleTimelineClick_clamps_witness :
  exists time,
    handleTimelineClick (Some (Scenario.snapshot Scenario.abutting 0))
                        (mkMouseEvent 1000 0 0) = [onSeek time] /\
    time == 8.
Proof.
  destruct (handleTimelineClick_clamps
              (fun _ => App.Thrown "backend unavailable")
              (Scenario.snapshot Scenario.abutting 0) (mkMouseEvent 1000 0 0))
    as (time & H & E & _).
  - vm_compute. discriminate.
  - exists time. split; [exact H|]. rewrite E. reflexivity.
Defined.

Example click_before_start_seeks_to_zero :
  handleTimelineClick (Some (Scenario.snapshot Scenario.abutting 0))
                      (mkMouseEvent 10 40 0) =
  [onSeek (pixelToTime (Some (Scenario.snapshot Scenario.abutting 0)) (-30))] /\
  pixelToTime (Some (Scenario.snapshot Scenario.abutting 0)) (-30) == 0.
Proof. split; reflexivity. Qed.

(** ** The resolver leaves its argument alone *)

(** C10.  Run on a store that holds the array [clips], [getActiveClip]
    returns what the resolver computes from the array's elements and
    leaves the array, its elements and their order, as it was: the sort
    works on a fresh copy, and every array of the store is unchanged. *)
Theorem getActiveClip_does_not_mutate
        (h : gmap Heap.ref (list Clip)) (clips : Heap.ref) (l : list Clip) (time : Q) :
  h !! clips = Some l ->
  exists (copy : Heap.ref) (h' : gmap Heap.ref (list Clip)),
    Heap.getActiveClip clips time h = Some (getActiveClip l time, h') /\
    h' !! clips = Some l /\
    (forall r, is_Some (h !! r) -> h' !! r = h !! r) /\
    h !! copy = None /\
    h' !! copy = Some (JS.sort byStart l).
Proof.
  intro Hl.
  set (copy := fresh (dom h)).
  assert (Hfresh : h !! copy = None).
  { apply not_elem_of_dom. apply is_fresh. }
  assert (Hne : forall r, is_Some (h !! r) -> copy <> r).
  { intros r [x Hr] ->. congruence. }
  exists copy, (<[copy := JS.sort byStart l]> (<[copy := l]> h)).
  split; [|split; [|split; [|split]]].
  - unfold Heap.getActiveClip, Heap.spread, Heap.Array_sort, Heap.bind,
      Heap.read, Heap.alloc, Heap.write, Heap.ret.
    rewrite Hl. fold copy.
    repeat (rewrite lookup_insert_eq; cbv beta iota). reflexivity.
  - rewrite !lookup_insert_ne; [exact Hl | |]; apply Hne; now rewrite Hl.
  - intros r Hr. rewrite !lookup_insert_ne; auto.
  - exact Hfresh.
  - apply lookup_insert_eq.
Qed.

Lemma getActiveClip_does_not_mutate_witness :
  exists (copy : Heap.ref) (h' : gmap Heap.ref (list Clip)),
    Heap.getActiveClip 0%nat 5 {[ 0%nat := [Scenario.next3; Scenario.first5] ]} =
      Some (getActiveClip [Scenario.next3; Scenario.first5] 5, h') /\
    h' !! 0%nat = Some [Scenario.next3; Scenario.first5].
Proof.
  destruct (getActiveClip_does_not_mutate
              {[ 0%nat := [Scenario.next3; Scenario.first5] ]} 0%nat
              [Scenario.next3; Scenario.first5] 5)
    as (copy & h' & H1 & H2 & _).
  - reflexivity.
  - exists copy, h'. split; [exact H1 | exact H2].
Defined.

(** Sorting the argument itself would reorder the caller's array. *)
Example in_place_sort_reorders_caller_array :
  exists h',
    Heap.getActiveClip_in_place 0%nat 5 {[ 0%nat := [Scenario.next3; Scenario.first5] ]} =
      Some (Some Scenario.next3, h') /\
    h' !! 0%nat = Some [Scenario.first5; Scenario.next3].
Proof.
  eexists. split; [reflexivity|]. apply lookup_insert_eq.
Qed.

(** Scenario A: one clip [0, 5); at 6 there is a gap. *)
Example scenario_A_gap :
  getActiveClip [Scenario.first5] 6 = None /\
  render (mkProps [Scenario.first5] 6 false) Scenario.unbound = GapInTimeline.
Proof. split; reflexivity. Qed.

(** Scenario B, after the tick: the snapshot with the playhead at 5 makes
    the second clip active and the element is bound to it at offset 0. *)
Example scenario_B_rebinds :
  activeClip (App.videoPlayerProps
                (App.onStateUpdate (Scenario.snapshot Scenario.abutting 5) None) true) =
    Some Scenario.next3 /\
  trace (clipChangeEffect Scenario.assetUrl
           (App.videoPlayerProps
              (App.onStateUpdate (Scenario.snapshot Scenario.abutting 5) None) true))
        (Scenario.playing Scenario.first5 5.02) =
    [video_set_src (Scenario.assetUrl "/media/two.mp4");
     video_set_currentTime (JS.Math_max 0 (5 - 5)); video_play].
Proof. split; reflexivity. Qed.

(** * Further properties of the components *)

(** ** The resolver at the edges of the timeline *)

(** X1.  The resolver returns [None] at every time at or past
    [totalDuration] and at every time before the first start, and it
    never returns a clip whose duration is zero or negative. *)
Theorem getActiveClip_none_outside_timeline (clips : list Clip) (t : Q) :
  (totalDuration clips <= t -> getActiveClip clips t = None) /\
  ((forall c, In c clips -> t < start c) -> getActiveClip clips t = None) /\
  (forall c, duration c <= 0 -> getActiveClip clips t <> Some c).
Proof.
  rewrite getActiveClip_resolve. split; [|split].
  - intro H. apply resolve_None. intros c Hc. apply covers_false_iff.
    destruct (totalDuration_max clips) as (_ & Hmax & _).
    specialize (Hmax c Hc). unfold clipEnd in Hmax. lra.
  - intro H. apply resolve_None. intros c Hc. apply covers_false_iff.
    specialize (H c Hc). lra.
  - intros c Hd H. apply resolve_Some in H as (H & _).
    apply covers_iff in H. lra.
Qed.

(** X2.  In a clip list without overlap the resolver returns a clip
    exactly when that clip is listed and its interval holds [t]; so two
    times inside one clip resolve to that clip. *)
Theorem getActiveClip_NoOverlap_iff (clips : list Clip) (t : Q) (c : Clip) :
  NoOverlap clips ->
  (getActiveClip clips t = Some c <-> In c clips /\ inInterval c t) /\
  (forall t', In c clips -> inInterval c t -> inInterval c t' ->
              getActiveClip clips t' = getActiveClip clips t).
Proof.
  intro Hno. rewrite !getActiveClip_resolve. split.
  - split.
    + intro H. split; [eapply resolve_In; eauto|].
      apply resolve_Some in H as (H & _). now apply covers_iff.
    + intros [Hin Hc]. apply resolve_NoOverlap; auto. now apply covers_iff.
  - intros t' Hin Ht Ht'. rewrite !getActiveClip_resolve.
    rewrite (resolve_NoOverlap clips t c), (resolve_NoOverlap clips t' c);
      auto; now apply covers_iff.
Qed.

Lemma getActiveClip_NoOverlap_iff_witness :
  getActiveClip Scenario.abutting 6 = Some Scenario.next3 <->
  In Scenario.next3 Scenario.abutting /\ inInterval Scenario.next3 6.
Proof.
  apply (getActiveClip_NoOverlap_iff Scenario.abutting 6 Scenario.next3).
  exact abutting_NoOverlap.
Defined.

(** X3.  Without overlap the order in which the clips are listed does not
    matter: every rearrangement of the list resolves to the same clip. *)
Theorem getActiveClip_order_independent (clips clips' : list Clip) (t : Q) :
  NoOverlap clips ->
  Permutation clips clips' ->
  getActiveClip clips' t = getActiveClip clips t.
Proof.
  intros Hno Hp. rewrite !getActiveClip_resolve.
  destruct (resolve clips t) as [c|] eqn:R.
  - pose proof (resolve_In _ _ _ R) as Hin.
    apply resolve_Some in R as (Hc & _).
    destruct (resolve clips' t) as [c'|] eqn:R'.
    + f_equal. pose proof (resolve_In _ _ _ R') as Hin'.
      apply resolve_Some in R' as (Hc' & _).
      apply (NoOverlap_unique clips t); auto.
      eapply Permutation_in; [apply Permutation_sym|]; eauto.
    + rewrite resolve_None in R'.
      rewrite (R' c) in Hc; [discriminate|]. eapply Permutation_in; eauto.
  - rewrite resolve_None in R. apply resolve_None. intros c Hc.
    apply R. eapply Permutation_in; [apply Permutation_sym|]; eauto.
Qed.

Lemma getActiveClip_order_independent_witness :
  getActiveClip [Scenario.next3; Scenario.first5] 6 = getActiveClip Scenario.abutting 6.
Proof.
  apply (getActiveClip_order_independent Scenario.abutting [Scenario.next3; Scenario.first5] 6).
  - exact abutting_NoOverlap.
  - apply perm_swap.
Defined.

(** ** The tick inside a clip and its way back through the backend *)

Lemma trace_seq {A B} (m : M A) (k : M B) (s : State) :
  trace (m ;; k) s = trace m s ++ trace k (exec m s) /\
  exec (m ;; k) s = exec k (exec m s).
Proof.
  unfold trace, exec, bind.
  destruct (m s) as [[a s1] t1]. cbn [fst snd].
  destruct (k s1) as [[b s2] t2]. split; reflexivity.
Qed.

Lemma driftSyncEffect_near (p : Props) (s : State) (clip : Clip) (v : HTMLVideoElement) :
  activeClip p = Some clip ->
  videoRef s = Some v ->
  Qabs (currentTime v - (playheadTime p - start clip)) <= 0.1 ->
  driftSyncEffect p s = (tt, s, []).
Proof.
  intros Ha Hv H. apply gt_false_iff in H.
  unfold driftSyncEffect. cbv [bind gets]. rewrite Ha, Hv.
  unfold JS.Math_abs. rewrite H. reflexivity.
Qed.

Lemma driftSyncEffect_far (p : Props) (s : State) (clip : Clip) (v : HTMLVideoElement) :
  activeClip p = Some clip ->
  videoRef s = Some v ->
  0.1 < Qabs (currentTime v - (playheadTime p - start clip)) ->
  driftSyncEffect p s =
  (tt,
   mkState (Some (mkVideo (src v) (JS.Math_max 0 (playheadTime p - start clip)) (paused v)))
           (error s) (currentClipId s) (animationFrameRef s) (lastFrameHandle s),
   [video_set_currentTime (JS.Math_max 0 (playheadTime p - start clip))]).
Proof.
  intros Ha Hv H. apply gt_true_iff in H.
  unfold driftSyncEffect. cbv [bind gets]. rewrite Ha, Hv.
  unfold JS.Math_abs. rewrite H. run. now rewrite Hv.
Qed.

(** A tick on a mounted element whose time is inside the clip. *)
Lemma updatePlayhead_within (p : Props) (s : State) (clip : Clip) (v : HTMLVideoElement) :
  videoRef s = Some v ->
  activeClip p = Some clip ->
  isPlaying p = true ->
  currentTime v < duration clip ->
  updatePlayhead p s =
  (tt,
   mkState (videoRef s) (error s) (currentClipId s)
           (Some (S (lastFrameHandle s))) (S (lastFrameHandle s)),
   [onPlayheadChange (start clip + currentTime v);
    requestAnimationFrame (S (lastFrameHandle s))]).
Proof.
  intros Hv Ha Hp Hd.
  assert (Hge : JS.ge (currentTime v) (duration clip) = false)
    by (unfold JS.ge; now apply le_false_iff).
  unfold updatePlayhead. cbv [bind gets]. rewrite Hv, Ha, Hp, Hge.
  run. now rewrite ?Hv.
Qed.

(** X5.  A tick does nothing, and requests no further frame, when
    [isPlaying] is false, when no element is mounted, or when no clip is
    active. *)
Theorem tick_does_nothing_when_idle (p : Props) (s : State) :
  isPlaying p = false \/ videoRef s = None \/ activeClip p = None ->
  updatePlayhead p s = (tt, s, []).
Proof.
  unfold updatePlayhead. cbv [bind gets].
  intros [H|[H|H]]; rewrite H.
  - destruct (videoRef s), (activeClip p); reflexivity.
  - reflexivity.
  - destruct (videoRef s); reflexivity.
Qed.

Lemma tick_does_nothing_when_idle_witness :
  updatePlayhead (mkProps [Scenario.first5] 6 true) (Scenario.playing Scenario.first5 5) =
  (tt, Scenario.playing Scenario.first5 5, []).
Proof.
  apply (tick_does_nothing_when_idle (mkProps [Scenario.first5] 6 true)
                                      (Scenario.playing Scenario.first5 5)).
  right. right. reflexivity.
Defined.

(** ** Binding the element *)

Lemma clipChangeEffect_currentClipId
      (convertFileSrc : string -> string) (p : Props) (s : State) :
  currentClipId (exec (clipChangeEffect convertFileSrc p) s) =
  option_map id (activeClip p).
Proof.
  unfold clipChangeEffect, exec. cbv [bind gets].
  destruct (activeClip p) as [clip|]; [|reflexivity].
  destruct (id_differs (id clip) (currentClipId s)) eqn:Hd.
  - run. destruct (videoRef s) as [v|]; [destruct (isPlaying p)|]; reflexivity.
  - run. unfold id_differs in Hd.
    destruct (currentClipId s) as [c|]; [|discriminate].
    apply negb_false_iff, String.eqb_eq in Hd. now subst.
Qed.

Lemma clipChangeEffect_settled
      (convertFileSrc : string -> string) (p : Props) (s : State) :
  currentClipId s = option_map id (activeClip p) ->
  clipChangeEffect convertFileSrc p s = (tt, s, []).
Proof.
  intro H. destruct (activeClip p) as [clip|] eqn:Ha.
  - now apply (clipChangeEffect_same convertFileSrc p s clip).
  - unfold clipChangeEffect. rewrite Ha.
    destruct s as [v e c a l]. cbn in H. subst c. reflexivity.
Qed.

(** X6.  After the clip-change effect the recorded clip identifier is the
    active clip's, or [null] in a gap, whatever it was before; running the
    effect again changes nothing and touches nothing. *)
Theorem clipChangeEffect_tracks_active_clip
        (convertFileSrc : string -> string) (p : Props) (s : State) :
  currentClipId (exec (clipChangeEffect convertFileSrc p) s) =
    option_map id (activeClip p) /\
  clipChangeEffect convertFileSrc p (exec (clipChangeEffect convertFileSrc p) s) =
    (tt, exec (clipChangeEffect convertFileSrc p) s, []).
Proof.
  split; [apply clipChangeEffect_currentClipId|].
  apply clipChangeEffect_settled, clipChangeEffect_currentClipId.
Qed.

(** X7.  In the commit that binds a new clip the drift-sync effect, which
    runs after the clip-change effect, adds nothing: the element is
    already where the playhead puts it. *)
Theorem rebind_needs_no_drift_correction
        (convertFileSrc : string -> string)
        (p : Props) (s : State) (clip : Clip) (v : HTMLVideoElement) :
  activeClip p = Some clip ->
  currentClipId s <> Some (id clip) ->
  videoRef s = Some v ->
  trace (clipChangeEffect convertFileSrc p ;; driftSyncEffect p) s =
    trace (clipChangeEffect convertFileSrc p) s /\
  exec (clipChangeEffect convertFileSrc p ;; driftSyncEffect p) s =
    exec (clipChangeEffect convertFileSrc p) s.
Proof.
  intros Ha Hc Hv.
  destruct (activeClip_inInterval p clip Ha) as (_ & Hlo & _).
  destruct (trace_seq (clipChangeEffect convertFileSrc p) (driftSyncEffect p) s)
    as [-> ->].
  pose proof (clipChangeEffect_rebind convertFileSrc p s clip v Ha Hc Hv) as Hrun.
  remember (exec (clipChangeEffect convertFileSrc p) s) as s1 eqn:Es1.
  assert (Hv1 : videoRef s1 =
                Some (mkVideo (convertFileSrc (source_file clip))
                              (JS.Math_max 0 (playheadTime p - start clip))
                              (if isPlaying p then false else paused v))).
  { subst s1. unfold exec. now rewrite Hrun. }
  assert (Hnear : driftSyncEffect p s1 = (tt, s1, [])).
  { eapply driftSyncEffect_near; [exact Ha | exact Hv1|].
    cbn [currentTime]. unfold JS.Math_max. apply Qabs_Qle_condition.
    destruct (Q.max_spec 0 (playheadTime p - start clip)) as [[L E]|[L E]];
      split; lra. }
  unfold trace at 2. unfold exec at 1. rewrite Hnear. cbn [fst snd].
  split; [apply app_nil_r | reflexivity].
Qed.

Lemma rebind_needs_no_drift_correction_witness :
  trace (clipChangeEffect Scenario.assetUrl (mkProps Scenario.abutting 6 true) ;;
         driftSyncEffect (mkProps Scenario.abutting 6 true))
        (Scenario.playing Scenario.first5 1) =
  trace (clipChangeEffect Scenario.assetUrl (mkProps Scenario.abutting 6 true))
        (Scenario.playing Scenario.first5 1).
Proof.
  apply (rebind_needs_no_drift_correction
           Scenario.assetUrl (mkProps Scenario.abutting 6 true)
           (Scenario.playing Scenario.first5 1) Scenario.next3
           (mkVideo (Scenario.assetUrl "/media/one.mp4") 1 false)).
  - reflexivity.
  - discriminate.
  - reflexivity.
Defined.

(** X8.  When the active clip changes while no element is mounted, the
    clip-change effect records the new identifier and clears the error
    but calls nothing on a media element; from then on, as long as the
    active clip keeps that identifier, no effect sets a source. *)
Theorem clip_change_without_element_binds_nothing
        (convertFileSrc : string -> string)
        (p : Props) (s : State) (clip : Clip) :
  activeClip p = Some clip ->
  currentClipId s <> Some (id clip) ->
  videoRef s = None ->
  clipChangeEffect convertFileSrc p s =
    (tt, mkState None None (Some (id clip)) (animationFrameRef s) (lastFrameHandle s), []) /\
  forall (p2 : Props) (s2 : State) (clip2 : Clip) (url : string),
    activeClip p2 = Some clip2 ->
    id clip2 = id clip ->
    currentClipId s2 = Some (id clip) ->
    ~ In (video_set_src url)
         (trace (clipChangeEffect convertFileSrc p2 ;; driftSyncEffect p2 ;;
                 playbackLoopEffect p2) s2).
Proof.
  intros Ha Hc Hv. split.
  - unfold clipChangeEffect. rewrite Ha. cbv [bind gets].
    rewrite (id_differs_true _ _ Hc). run. now rewrite Hv.
  - intros p2 s2 clip2 url Ha2 Hid Hc2.
    rewrite <- Hid in Hc2.
    destruct (trace_seq (clipChangeEffect convertFileSrc p2)
                        (driftSyncEffect p2 ;; playbackLoopEffect p2) s2) as [-> _].
    unfold trace at 1, exec. rewrite (clipChangeEffect_same _ _ _ _ Ha2 Hc2).
    cbn [fst snd app].
    destruct (trace_seq (driftSyncEffect p2) (playbackLoopEffect p2) s2) as [-> _].
    rewrite in_app_iff. intros [H|H]; revert H.
    + unfold driftSyncEffect, trace. cbv [bind gets]. rewrite Ha2.
      destruct (videoRef s2) as [v|]; [|cbn; tauto].
      destruct (JS.gt _ _); run; cbn [In]; intuition discriminate.
    + generalize (exec (driftSyncEffect p2) s2). intro s3.
      unfold playbackLoopEffect, trace. cbv [bind gets].
      destruct (videoRef s3) as [v|] eqn:Hv3; [|cbn; tauto].
      destruct (isPlaying p2); run; rewrite ?Hv3; cbv [option_map].
      * cbn [In]. intuition discriminate.
      * destruct (animationFrameRef s3) as [[|n]|]; cbn [In]; intuition discriminate.
Qed.

Lemma clip_change_without_element_binds_nothing_witness :
  clipChangeEffect Scenario.assetUrl (mkProps Scenario.abutting 6 true)
                   (mkState None (Some "Playback failed."%string)
                            (Some (id Scenario.first5)) None 0) =
  (tt, mkState None None (Some (id Scenario.next3)) None 0, []).
Proof.
  apply (clip_change_without_element_binds_nothing
           Scenario.assetUrl (mkProps Scenario.abutting 6 true)
           (mkState None (Some "Playback failed."%string)
                    (Some (id Scenario.first5)) None 0)
           Scenario.next3).
  - reflexivity.
  - discriminate.
  - reflexivity.
Defined.

(** ** The toggle, the frame loop and what is rendered *)

(** X9.  [togglePlay] never changes the component's state.  With clips
    it calls [onPlayingChange] once, with the opposite of [isPlaying], as
    its last call; it calls [onPlayheadChange] only when paused at or past
    [totalDuration - 0.1], and then only with [0]. *)
Theorem togglePlay_seeks_only_to_restart (p : Props) (s : State) :
  exec (togglePlay p) s = s /\
  (clips p <> [] ->
   exists seeks, trace (togglePlay p) s = seeks ++ [onPlayingChange (negb (isPlaying p))] /\
                 (seeks = [] \/ seeks = [onPlayheadChange 0])) /\
  (forall t, In (onPlayheadChange t) (trace (togglePlay p) s) <->
             clips p <> [] /\ isPlaying p = false /\
             totalDuration (clips p) - 0.1 <= playheadTime p /\ t = 0).
Proof.
  unfold togglePlay, trace, exec.
  destruct (clips p) as [|c l] eqn:E; cbn [length Nat.eqb].
  - split; [reflexivity|]. split; [congruence|].
    intro t. cbn. split; [tauto | intros [H _]; congruence].
  - destruct (isPlaying p) eqn:Hp; cbn [negb andb].
    + split; [reflexivity|]. split.
      * intros _. exists []. split; [reflexivity | now left].
      * intro t. cbn. split; [intros [H|[]]; discriminate | intros (_ & H & _); discriminate].
    + destruct (JS.ge (playheadTime p) (totalDuration (c :: l) - 0.1)) eqn:Hge.
      * apply ge_true_iff in Hge. split; [reflexivity|]. split.
        -- intros _. exists [onPlayheadChange 0]. split; [reflexivity | now right].
        -- intro t. cbn. split.
           ++ intros [[= <-]|[H|[]]]; [|discriminate]. repeat split; auto.
           ++ intros (_ & _ & _ & ->). now left.
      * split; [reflexivity|]. split.
        -- intros _. exists []. split; [reflexivity | now left].
        -- intro t. cbn. split; [intros [H|[]]; discriminate|].
           intros (_ & _ & H & _). apply ge_true_iff in H.
           unfold totalDuration in Hge. cbn [fold_left] in Hge. congruence.
Qed.

(** X10.  Whenever the tick or the playback-loop effect requests a frame,
    the handle is new and is the one left in [animationFrameRef], so the
    effect's cleanup cancels exactly that request. *)
Theorem requested_frame_is_the_one_cancelled (p : Props) (s : State) (h : nat) :
  (In (requestAnimationFrame h) (trace (updatePlayhead p) s) ->
   (lastFrameHandle s < h)%nat /\
   animationFrameRef (exec (updatePlayhead p) s) = Some h /\
   trace playbackLoopCleanup (exec (updatePlayhead p) s) = [cancelAnimationFrame h]) /\
  (In (requestAnimationFrame h) (trace (playbackLoopEffect p) s) ->
   (lastFrameHandle s < h)%nat /\
   animationFrameRef (exec (playbackLoopEffect p) s) = Some h /\
   trace playbackLoopCleanup (exec (playbackLoopEffect p) s) = [cancelAnimationFrame h]).
Proof.
  split.
  - unfold updatePlayhead, trace, exec. cbv [bind gets].
    destruct (videoRef s) as [v|], (activeClip p) as [clip|], (isPlaying p);
      try (cbn; tauto).
    destruct (JS.ge _ _); [destruct (getActiveClip _ _)|]; run; cbn [In];
      try (intros [H|[H|[]]]; try discriminate; injection H as <-;
           split; [apply Nat.lt_succ_diag_r | split; reflexivity]).
    intros [H|[]]. discriminate.
  - unfold playbackLoopEffect, trace, exec. cbv [bind gets].
    destruct (videoRef s) as [v|] eqn:Hv; [|cbn; tauto].
    destruct (isPlaying p); run; rewrite ?Hv; cbv [option_map]; cbn [In].
    + intros [H|[H|[]]]; try discriminate. injection H as <-.
      split; [apply Nat.lt_succ_diag_r | split; reflexivity].
    + destruct (animationFrameRef s) as [[|n]|]; cbn [In];
        intros H; exfalso; intuition discriminate.
Qed.

Lemma activeClip_clips_nonempty (p : Props) (clip : Clip) :
  activeClip p = Some clip -> (length (clips p) =? 0)%nat = false.
Proof.
  intro H. apply activeClip_inInterval in H as [H _].
  destruct (clips p); [destruct H | reflexivity].
Qed.

(** X11.  The component shows the "no video" placeholder exactly when
    there are no clips, and the "gap" placeholder exactly when there are
    clips and none of their intervals holds the playhead; the element is
    rendered only for a playhead inside the active clip. *)
Theorem render_placeholders (p : Props) (s : State) :
  (render p s = NoVideoLoaded <-> clips p = []) /\
  (render p s = GapInTimeline <->
   clips p <> [] /\ forall c, In c (clips p) -> ~ inInterval c (playheadTime p)) /\
  (render p s = VideoElement ->
   exists clip, activeClip p = Some clip /\ In clip (clips p) /\
                inInterval clip (playheadTime p)).
Proof.
  unfold render.
  assert (Hgap : activeClip p = None <->
                 forall c, In c (clips p) -> ~ inInterval c (playheadTime p)).
  { unfold activeClip. rewrite getActiveClip_resolve, resolve_None.
    split; intros H c Hc; apply covers_false_iff; now apply H. }
  destruct (clips p) as [|c l] eqn:E; cbn [length Nat.eqb].
  - split; [tauto|]. split; [|discriminate].
    split; [discriminate | intros [H _]; congruence].
  - destruct (activeClip p) as [clip|] eqn:Ha.
    + assert (Hnot : ~ forall c0, In c0 (c :: l) -> ~ inInterval c0 (playheadTime p)).
      { intro H. apply Hgap in H. discriminate. }
      split; [|split].
      * split; [destruct (error s) as [[|? ?]|]; discriminate | discriminate].
      * split; [destruct (error s) as [[|? ?]|]; discriminate | intros [_ H]; tauto].
      * intros _. exists clip. split; [reflexivity|].
        rewrite <- E. now apply activeClip_inInterval.
    + split; [split; discriminate|]. split; [|discriminate].
      split; [intros _; split; [discriminate | now apply Hgap] | reflexivity].
Qed.

Lemma prefix_append (a b : string) : String.prefix a (a ++ b) = true.
Proof.
  induction a as [|c a IH]; simpl; [now destruct b|].
  destruct (ascii_dec c c) as [_|N]; [exact IH | now elim N].
Qed.

(** ** What the timeline draws *)

Import TimelineView.

(** X13.  The tracks are at least 1000 pixels wide.  The box of a clip
    that ends within the timeline's duration ends more than 200 pixels
    before the right edge; the box of a clip that abuts the next one ends
    exactly one pixel before the next box starts, and boxes of clips that
    do not overlap do not overlap on screen; the playhead of a time in
    [[0, duration]] is drawn within the tracks. *)
Theorem timeline_boxes_fit (ts : TimelineState) :
  1000 <= totalWidth (Some ts) /\
  (forall c, clipEnd c <= ts_duration ts ->
             clipLeft c + clipWidth c < totalWidth (Some ts) - 200) /\
  (forall a b, clipEnd a == start b -> clipLeft b == clipLeft a + clipWidth a + 1) /\
  (forall a b, clipEnd a <= start b -> clipLeft a + clipWidth a < clipLeft b) /\
  (forall t, 0 <= t -> t <= ts_duration ts ->
             0 <= timeToPixel t /\ timeToPixel t <= totalWidth (Some ts) - 200).
Proof.
  unfold totalWidth, clipLeft, clipWidth, timeToPixel, clipEnd, PIXELS_PER_SECOND,
    JS.Math_max.
  pose proof (Q.le_max_l (ts_duration ts * 50 + 200) 1000) as Hl.
  pose proof (Q.le_max_r (ts_duration ts * 50 + 200) 1000) as Hr.
  split; [exact Hr|]. split; [|split; [|split]].
  - intros c Hc. lra.
  - intros a b E. lra.
  - intros a b E. lra.
  - intros t H0 H1. split; lra.
Qed.

(** X14.  The time a click seeks to never decreases as the pointer moves
    right; on a timeline with a duration that is not negative, a pixel
    within the timeline maps back to itself, a pixel left of it seeks to
    [0] and a pixel right of it seeks to the duration. *)
Theorem pixelToTime_monotone (ts : TimelineState) (x y : Q) :
  0 <= ts_duration ts ->
  x <= y ->
  pixelToTime (Some ts) x <= pixelToTime (Some ts) y /\
  (0 <= x -> x <= ts_duration ts * 50 ->
   timeToPixel (pixelToTime (Some ts) x) == x) /\
  (x <= 0 -> pixelToTime (Some ts) x == 0) /\
  (ts_duration ts * 50 <= x -> pixelToTime (Some ts) x == ts_duration ts).
Proof.
  intros Hd Hxy.
  pose proof (pixelToTime_clamp ts x) as Px.
  pose proof (pixelToTime_clamp ts y) as Py.
  unfold clamp, timeToPixel, PIXELS_PER_SECOND in *.
  assert (Ex : x / 50 == x * (1 # 50)) by reflexivity.
  assert (Ey : y / 50 == y * (1 # 50)) by reflexivity.
  destruct (Q.max_spec 0 (Qmin (x / 50) (ts_duration ts))) as [[L1 E1]|[L1 E1]];
    destruct (Q.max_spec 0 (Qmin (y / 50) (ts_duration ts))) as [[L2 E2]|[L2 E2]];
    destruct (Q.min_spec (x / 50) (ts_duration ts)) as [[L3 E3]|[L3 E3]];
    destruct (Q.min_spec (y / 50) (ts_duration ts)) as [[L4 E4]|[L4 E4]];
    repeat split; intros; lra.
Qed.

Lemma pixelToTime_monotone_witness :
  pixelToTime (Some (Scenario.snapshot Scenario.abutting 0)) 100 <=
  pixelToTime (Some (Scenario.snapshot Scenario.abutting 0)) 250.
Proof.
  apply (pixelToTime_monotone (Scenario.snapshot Scenario.abutting 0) 100 250).
  - vm_compute. discriminate.
  - vm_compute. discriminate.
Defined.

Lemma below_ceiling (i : nat) (q : Q) :
  (i < Z.to_nat (Qceiling q))%nat <-> inject_Z (Z.of_nat i) < q.
Proof.
  pose proof (Qle_ceiling q) as Hle. pose proof (Qceiling_lt q) as Hlt.
  split.
  - intro H. assert (Hz : (Z.of_nat i <= Qceiling q - 1)%Z) by lia.
    apply (Qle_lt_trans _ (inject_Z (Qceiling q - 1))); [|exact Hlt].
    rewrite <- Zle_Qle. exact Hz.
  - intro H. assert (Hz : (Z.of_nat i < Qceiling q)%Z).
    { rewrite Zlt_Qlt. apply (Qlt_le_trans _ q); assumption. }
    lia.
Qed.

(** X15.  The ruler has one tick for every whole second below
    [duration + 5], labelled with that second and placed at 50 pixels per
    second, and no other tick; so every whole second of the timeline has
    its tick. *)
Theorem ruler_ticks_whole_seconds (ts : TimelineState) (i : nat) (x : Q) :
  (In (i, x) (rulerTicks ts) <->
   x = inject_Z (Z.of_nat i) * 50 /\ inject_Z (Z.of_nat i) < ts_duration ts + 5) /\
  (inject_Z (Z.of_nat i) <= ts_duration ts ->
   In (i, timeToPixel (inject_Z (Z.of_nat i))) (rulerTicks ts)).
Proof.
  assert (Hiff : forall j y, In (j, y) (rulerTicks ts) <->
             y = inject_Z (Z.of_nat j) * 50 /\
             inject_Z (Z.of_nat j) < ts_duration ts + 5).
  { intros j y. unfold rulerTicks, rulerLength. rewrite in_map_iff. split.
    - intros (k & [= <- <-] & Hk). split; [reflexivity|].
      apply in_seq in Hk. apply below_ceiling. lia.
    - intros [-> Hj]. exists j. split; [reflexivity|].
      apply in_seq. apply below_ceiling in Hj. lia. }
  split; [apply Hiff|].
  intro H. apply Hiff. split; [reflexivity | lra].
Qed.

(** ** The colour of a clip *)

Lemma toInt32_range (z : Z) : (- 2 ^ 31 <= toInt32 z < 2 ^ 31)%Z.
Proof.
  unfold toInt32. pose proof (Z.mod_pos_bound (z + 2 ^ 31) (2 ^ 32)). lia.
Qed.

Lemma toInt32_congruent (z : Z) : exists k : Z, (toInt32 z = z + k * 2 ^ 32)%Z.
Proof.
  unfold toInt32. exists (- ((z + 2 ^ 31) / 2 ^ 32))%Z.
  pose proof (Z.div_mod (z + 2 ^ 31) (2 ^ 32)). lia.
Qed.

Lemma toInt32_id (z : Z) : (- 2 ^ 31 <= z < 2 ^ 31)%Z -> toInt32 z = z.
Proof.
  intro H. unfold toInt32. rewrite Z.mod_small; lia.
Qed.

Lemma hashOf_snoc (str : list Z) (c : Z) :
  hashOf (str ++ [c]) = hashStep (hashOf str) c.
Proof. unfold hashOf. now rewrite fold_left_app. Qed.

(** X16.  The hue of [stringToColor] is a whole number from 0 to 359 for
    every string.  For a string of 16-bit code units the hash stays within
    [length * (2^31 + 2^16)] in size, hence below [2^53], the range in
    which a number holds every integer exactly, for strings shorter than
    [2^21] code units. *)
Theorem stringToColor_hue_in_range (str : list Z) :
  (0 <= hue str < 360)%Z /\
  (Forall (fun c => 0 <= c < 2 ^ 16)%Z str ->
   (Z.abs (hashOf str) <= Z.of_nat (length str) * (2 ^ 31 + 2 ^ 16))%Z /\
   ((Z.of_nat (length str) < 2 ^ 21)%Z -> (Z.abs (hashOf str) < 2 ^ 53)%Z)).
Proof.
  split.
  - unfold hue. rewrite Z.rem_mod_nonneg by lia.
    apply Z.mod_pos_bound. lia.
  - intro H.
    assert (Hb : (Z.abs (hashOf str) <= Z.of_nat (length str) * (2 ^ 31 + 2 ^ 16))%Z).
    { induction str as [|c str IH] using rev_ind; [cbn; lia|].
      apply Forall_app in H as [Hs Hc]. apply List.Forall_inv in Hc.
      specialize (IH Hs). rewrite hashOf_snoc, length_app. cbn [length].
      unfold hashStep, shl5.
      pose proof (toInt32_range (toInt32 (hashOf str) * 2 ^ 5)). lia. }
    split; [exact Hb | lia].
Qed.

(** The base-31 polynomial of the code units. *)
Lemma hashOf_congruent (str : list Z) :
  exists k : Z,
    (hashOf str = fold_left (fun h c => 31 * h + c) str 0 + k * 2 ^ 32)%Z.
Proof.
  induction str as [|c str IH] using rev_ind; [exists 0%Z; reflexivity|].
  destruct IH as [k IH]. rewrite hashOf_snoc, fold_left_app. cbn [fold_left].
  unfold hashStep, shl5.
  destruct (toInt32_congruent (hashOf str)) as [k1 E1].
  destruct (toInt32_congruent (toInt32 (hashOf str) * 2 ^ 5)) as [k2 E2].
  exists (k2 + 32 * k1 + 31 * k)%Z. lia.
Qed.

(** X17.  The hash of [stringToColor] is congruent modulo [2^32] to the
    base-31 polynomial of the code units, and it is that polynomial as
    long as the polynomial stays below [2^26], where the shift cannot
    wrap. *)
Theorem stringToColor_hash_is_base_31 (str : list Z) :
  (hashOf str mod 2 ^ 32 = fold_left (fun h c => 31 * h + c) str 0 mod 2 ^ 32)%Z /\
  (Forall (fun c => 0 <= c)%Z str ->
   (fold_left (fun h c => 31 * h + c) str 0 < 2 ^ 26)%Z ->
   hashOf str = fold_left (fun h c => 31 * h + c)%Z str 0%Z).
Proof.
  split.
  - destruct (hashOf_congruent str) as [k ->]. apply Z_mod_plus_full.
  - induction str as [|c str IH] using rev_ind; [reflexivity|].
    intros H Hlt. apply Forall_app in H as [Hs Hc]. apply List.Forall_inv in Hc.
    rewrite fold_left_app in Hlt |- *. cbn [fold_left] in Hlt |- *.
    assert (Hpos : (0 <= fold_left (fun h c => 31 * h + c) str 0)%Z).
    { clear -Hs. induction str as [|d str IH] using rev_ind; [cbn; lia|].
      apply Forall_app in Hs as [Hs Hd]. apply List.Forall_inv in Hd.
      rewrite fold_left_app. cbn [fold_left]. specialize (IH Hs). lia. }
    rewrite hashOf_snoc, (IH Hs) by lia.
    unfold hashStep, shl5.
    rewrite (toInt32_id (fold_left _ str 0%Z)) by lia.
    rewrite toInt32_id by lia. lia.
Qed.

(** ** Mission control *)

(** Splits a goal into its conjuncts, and nothing else. *)
Ltac conjuncts := repeat match goal with |- _ /\ _ => split end.

Lemma banner_success (s : MissionControl.State) (result : string) :
  MissionControl.status s = Some ("Success: " ++ result)%string ->
  MissionControl.banner s = MissionControl.StatusSuccess.
Proof. unfold MissionControl.banner. intros ->. reflexivity. Qed.

Lemma banner_error (s : MissionControl.State) (reason : string) :
  MissionControl.status s = Some ("Error: " ++ reason)%string ->
  MissionControl.banner s = MissionControl.StatusError.
Proof.
  unfold MissionControl.banner. intros ->. reflexivity.
Qed.

(** X18.  With an empty prompt [runAiJsonEdit] calls nothing and changes
    nothing, and the button that starts it is disabled.  Otherwise,
    whatever the backend answers, it ends with [isProcessing] false and
    the prompt kept; it asks [apply_edit_plan] exactly when
    [process_user_prompt] answered, with the text of that answer; and the
    banner is the success banner exactly when both calls answered, the
    error banner when either was rejected. *)
Theorem runAiJsonEdit_outcome
        (process_user_prompt : string -> string -> App.Completion string)
        (apply_edit_plan : string -> App.Completion string)
        (requestId : string) (s : MissionControl.State) :
  let run := MissionControl.runAiJsonEdit process_user_prompt apply_edit_plan requestId s in
  (MissionControl.prompt s = ""%string ->
   run = (s, []) /\ MissionControl.runDisabled s = true) /\
  (MissionControl.prompt s <> ""%string ->
   MissionControl.isProcessing (fst run) = false /\
   MissionControl.prompt (fst run) = MissionControl.prompt s /\
   MissionControl.isRendering (fst run) = MissionControl.isRendering s /\
   (forall raw, In (MissionControl.invoke_apply_edit_plan raw) (snd run) <->
                process_user_prompt (MissionControl.prompt s) requestId = App.Returned raw) /\
   (MissionControl.banner (fst run) = MissionControl.StatusSuccess <->
    exists text result,
      process_user_prompt (MissionControl.prompt s) requestId = App.Returned text /\
      apply_edit_plan text = App.Returned result) /\
   (MissionControl.banner (fst run) = MissionControl.StatusError <->
    ~ exists text result,
        process_user_prompt (MissionControl.prompt s) requestId = App.Returned text /\
        apply_edit_plan text = App.Returned result) /\
   hd_error (snd run) = Some (MissionControl.setIsProcessing true) /\
   List.last (snd run) (MissionControl.setIsProcessing true) =
     MissionControl.setIsProcessing false).
Proof.
  cbv zeta. unfold MissionControl.runAiJsonEdit, MissionControl.runDisabled,
              MissionControl.editChain.
  destruct (MissionControl.prompt s) as [|c rest] eqn:Ep; cbn [MissionControl.isEmpty].
  - split; [|congruence]. intros _. split; [reflexivity | apply orb_true_r].
  - split; [discriminate|]. intros _.
    destruct (process_user_prompt (String c rest) requestId) as [text|reason] eqn:E1;
      [destruct (apply_edit_plan text) as [result|reason] eqn:E2|];
      cbn [fst snd app]; conjuncts; try reflexivity.
    + intro raw. cbn [In]. split.
      * intros [H|[H|[H|[H|[H|[H|[]]]]]]]; try discriminate. now injection H as <-.
      * intros [= <-]. do 3 right. now left.
    + rewrite (banner_success _ result) by reflexivity.
      split; [intros _; now exists text, result | reflexivity].
    + rewrite (banner_success _ result) by reflexivity.
      split; [discriminate|]. intro H. exfalso. apply H. now exists text, result.
    + intro raw. cbn [In]. split.
      * intros [H|[H|[H|[H|[H|[H|[]]]]]]]; try discriminate. now injection H as <-.
      * intros [= <-]. do 3 right. now left.
    + rewrite (banner_error _ reason) by reflexivity.
      split; [discriminate|]. intros (text' & result & [= <-] & H). congruence.
    + rewrite (banner_error _ reason) by reflexivity.
      split; [|reflexivity]. intros _ (text' & result & [= <-] & H). congruence.
    + intro raw. cbn [In]. split.
      * intros [H|[H|[H|[H|[H|[]]]]]]; discriminate.
      * discriminate.
    + rewrite (banner_error _ reason) by reflexivity.
      split; [discriminate|]. intros (text & result & H & _). discriminate.
    + rewrite (banner_error _ reason) by reflexivity.
      split; [|reflexivity]. intros _ (text & result & H & _). discriminate.
Qed.

(** X19.  [handleRender] always ends with [isRendering] false; it calls
    [onPreviewReady] exactly when the backend answered, with the path it
    answered, and then shows the success banner; when the backend
    rejected the call it shows the error banner. *)
Theorem handleRender_outcome
        (render_preview : App.Completion string) (s : MissionControl.State) :
  let run := MissionControl.handleRender render_preview s in
  MissionControl.isRendering (fst run) = false /\
  MissionControl.isProcessing (fst run) = MissionControl.isProcessing s /\
  (forall path, In (MissionControl.onPreviewReady path) (snd run) <->
                render_preview = App.Returned path) /\
  (MissionControl.banner (fst run) = MissionControl.StatusSuccess <->
   exists path, render_preview = App.Returned path) /\
  (MissionControl.banner (fst run) = MissionControl.StatusError <->
   exists reason, render_preview = App.Thrown reason).
Proof.
  cbv zeta. unfold MissionControl.handleRender.
  destruct render_preview as [path|reason]; cbn [fst snd]; conjuncts;
    try reflexivity.
  - intro p'. cbn [In]. split.
    + intros [H|[H|[H|[H|[H|[H|[]]]]]]]; try discriminate. now injection H as <-.
    + intros [= <-]. do 4 right. now left.
  - split; [intros _; now exists path | reflexivity].
  - split; [discriminate | intros [reason H]; discriminate].
  - intro p'. cbn [In]. split.
    + intros [H|[H|[H|[H|[H|[]]]]]]; discriminate.
    + discriminate.
  - split; [discriminate | intros [path H]; discriminate].
  - split; [intros _; now exists reason | reflexivity].
Qed.

(** ** File names *)

Import FileName.

Lemma split_no_separator (s : string) : hasSeparator s = false -> split s = [s].
Proof.
  induction s as [|c s IH]; [reflexivity|]. cbn [hasSeparator split].
  intro H. apply orb_false_iff in H as [Hc Hs]. now rewrite Hc, (IH Hs).
Qed.

Lemma split_with_separator (s : string) :
  hasSeparator s = true -> exists p q qs, split s = p :: q :: qs.
Proof.
  induction s as [|c s IH]; [discriminate|]. cbn [hasSeparator split].
  destruct (isSeparator c) eqn:Hc; cbn [orb].
  - intros _. destruct (split s) as [|p ps] eqn:E.
    + destruct s; cbn in E; [discriminate|].
      destruct (isSeparator a); [discriminate|]. destruct (split s); discriminate.
    + now exists EmptyString, p, ps.
  - intro H. destruct (IH H) as (p & q & qs & ->). now exists (String c p), q, qs.
Qed.

Lemma last_nonempty {A} (x : A) (l : list A) (d d' : A) :
  List.last (x :: l) d = List.last (x :: l) d'.
Proof.
  revert x. induction l as [|y l IH]; intro x; [reflexivity|].
  change (List.last (y :: l) d = List.last (y :: l) d'). apply IH.
Qed.

Lemma fileName_cons (c : ascii) (rest : string) :
  fileName (String c rest) =
  if isSeparator c || hasSeparator rest then fileName rest else String c rest.
Proof.
  unfold fileName, pop. cbn [split].
  destruct (hasSeparator rest) eqn:Hr.
  - destruct (split_with_separator rest Hr) as (p & q & qs & ->).
    rewrite orb_true_r. destruct (isSeparator c).
    + change (List.last (q :: qs) EmptyString = List.last (q :: qs) p).
      apply last_nonempty.
    + apply last_nonempty.
  - rewrite (split_no_separator rest Hr), orb_false_r.
    now destruct (isSeparator c).
Qed.

Lemma hasSeparator_append (dir : string) (sep : ascii) (name : string) :
  isSeparator sep = true -> hasSeparator (dir ++ String sep name) = true.
Proof.
  intro H. induction dir as [|c dir IH]; simpl.
  - now rewrite H.
  - rewrite IH. apply orb_true_r.
Qed.

(** X20.  The name shown for a clip is the part of its source path after
    the last slash or backslash: the path ends with it, it holds no
    separator, a path without separators is shown whole, and
    [dir/name] is shown as [name]. *)
Theorem fileName_is_last_component (path : string) :
  (exists dir, path = (dir ++ fileName path)%string) /\
  hasSeparator (fileName path) = false /\
  (hasSeparator path = false -> fileName path = path) /\
  (forall dir sep name,
     isSeparator sep = true -> hasSeparator name = false ->
     fileName (dir ++ String sep name) = name).
Proof.
  assert (Hwhole : forall s, hasSeparator s = false -> fileName s = s).
  { intros s H. unfold fileName. now rewrite (split_no_separator s H). }
  split; [|split; [|split]].
  - induction path as [|c path [dir IH]]; [now exists EmptyString|].
    rewrite fileName_cons. destruct (isSeparator c || hasSeparator path).
    + exists (String c dir).
      change (String c path = String c (dir ++ fileName path)). now f_equal.
    + now exists EmptyString.
  - induction path as [|c path IH]; [reflexivity|].
    rewrite fileName_cons. destruct (isSeparator c || hasSeparator path) eqn:E;
      [exact IH | exact E].
  - apply Hwhole.
  - intros dir sep name Hsep Hname.
    induction dir as [|c dir IH].
    + change (fileName (String sep name) = name).
      rewrite fileName_cons, Hsep. cbn [orb]. now apply Hwhole.
    + change (fileName (String c (dir ++ String sep name)) = name).
      rewrite fileName_cons, (hasSeparator_append dir sep name Hsep), orb_true_r.
      exact IH.
Qed.

(** ** Dropped files *)

Import FileImport.

(** X21.  For the paths of a drop the listener makes one call per path, in
    the order given: [import_video] for a path that ends, letters compared
    without case, with a dot and one of mp4, mov, avi, mkv, webm, and a
    warning for every other path; no other path reaches the backend. *)
Theorem onDrop_imports_only_videos (paths : list string) :
  length (onDrop paths) = length paths /\
  (forall i path, nth_error paths i = Some path ->
     nth_error (onDrop paths) i =
       Some (if isVideoPath path then invoke_import_video path
             else console_warn_ignored path)) /\
  (forall path, In (invoke_import_video path) (onDrop paths) <->
     In path paths /\
     exists base ending ext,
       list_ascii_of_string path = base ++ ending /\
       In ext videoExtensions /\
       map lower ending = list_ascii_of_string ("." ++ ext)).
Proof.
  assert (Hvideo : forall path, isVideoPath path = true <->
             exists base ending ext,
               list_ascii_of_string path = base ++ ending /\
               In ext videoExtensions /\
               map lower ending = list_ascii_of_string ("." ++ ext)).
  { intro path. unfold isVideoPath, endsWithIgnoringCase. rewrite existsb_exists.
    split.
    - intros (ext & Hext & H). apply bool_decide_eq_true in H as [k H].
      apply map_eq_app in H as (base & ending & E & _ & Hend).
      now exists base, ending, ext.
    - intros (base & ending & ext & E & Hext & Hend). exists ext. split; [exact Hext|].
      apply bool_decide_eq_true. exists (map lower base).
      now rewrite E, map_app, Hend. }
  unfold onDrop. split; [apply length_map|]. split.
  - intros i path H. now rewrite nth_error_map, H.
  - intro path. rewrite in_map_iff, <- Hvideo. split.
    + intros (q & H & Hq). destruct (isVideoPath q) eqn:E; [|discriminate].
      injection H as ->. now split.
    + intros [Hin Hv]. exists path. now rewrite Hv.
Qed.

(** ** From a click to the active clip *)

(** X22.  On a timeline whose clips do not overlap, a click on the pixels
    of a clip, from the left edge of its box up to the left edge of
    the next abutting box, seeks to a time inside that clip, and the snapshot
    that reports that time makes the clip the player's active clip. *)
Theorem click_on_clip_activates_it
        (ts : TimelineState) (c : Clip) (e : MouseEvent) :
  NoOverlap (ts_clips ts) ->
  In c (ts_clips ts) ->
  0 <= start c ->
  clipEnd c <= ts_duration ts ->
  clipLeft c <= clientX e - rect_left e + scrollLeft e ->
  clientX e - rect_left e + scrollLeft e < clipLeft c + clipWidth c + 1 ->
  exists time,
    handleTimelineClick (Some ts) e = [onSeek time] /\
    inInterval c time /\
    forall (payload : TimelineState) (previous : option TimelineState) (playing : bool),
      ts_clips payload = ts_clips ts ->
      playhead_time payload == time ->
      activeClip (App.videoPlayerProps (App.onStateUpdate payload previous) playing) =
      Some c.
Proof.
  intros Hno Hin Hs He Hl Hr.
  unfold clipLeft, clipWidth, clipEnd, PIXELS_PER_SECOND in *.
  set (x := clientX e - rect_left e + scrollLeft e) in *.
  exists (pixelToTime (Some ts) x).
  pose proof (pixelToTime_clamp ts x) as E. unfold PIXELS_PER_SECOND in E.
  assert (Ex : x / 50 == x * (1 # 50)) by reflexivity.
  assert (Et : pixelToTime (Some ts) x == x / 50).
  { rewrite E. apply clamp_inside; lra. }
  assert (Hint : inInterval c (pixelToTime (Some ts) x)).
  { unfold inInterval. rewrite Et. split; lra. }
  split; [reflexivity|]. split; [exact Hint|].
  intros payload previous playing Hclips Hpt.
  unfold App.videoPlayerProps, App.onStateUpdate, activeClip.
  cbn [clips playheadTime]. rewrite Hclips.
  rewrite (getActiveClip_time_eq _ _ _ Hpt), getActiveClip_resolve.
  apply resolve_NoOverlap; auto. now apply covers_iff.
Qed.

Lemma click_on_clip_activates_it_witness :
  exists time,
    handleTimelineClick (Some (Scenario.snapshot Scenario.abutting 0))
                        (mkMouseEvent 320 20 0) = [onSeek time] /\
    inInterval Scenario.next3 time.
Proof.
  destruct (click_on_clip_activates_it
              (Scenario.snapshot Scenario.abutting 0) Scenario.next3
              (mkMouseEvent 320 20 0)) as (time & H1 & H2 & _).
  - exact abutting_NoOverlap.
  - right. left. reflexivity.
  - vm_compute. discriminate.
  - vm_compute. discriminate.
  - vm_compute. discriminate.
  - reflexivity.
  - exists time. split; [exact H1 | exact H2].
Defined.

(** ** Checks on concrete inputs *)

Example isVideoPath_examples :
  isVideoPath "/videos/Holiday.MP4" = true /\
  isVideoPath "/videos/take 2.webm" = true /\
  isVideoPath "/videos/notes.txt" = false /\
  isVideoPath "/videos/clip.mp4.bak" = false /\
  isVideoPath "mp4" = false.
Proof. repeat split; reflexivity. Qed.

Example fileName_examples :
  fileName "/media/one.mp4" = "one.mp4"%string /\
  fileName "C:\clips\two.mov" = "two.mov"%string /\
  fileName "three.avi" = "three.avi"%string /\
  fileName "/media/" = ""%string.
Proof. repeat split; reflexivity. Qed.

Example stringToColor_examples :
  stringToColor (charCodes "a") = "hsl(97, 60%, 35%)"%string /\
  hashOf (charCodes "ab") = (97 * 31 + 98)%Z.
Proof. split; reflexivity. Qed.

Example errorMessage_examples :
  MediaEvents.errorMessage (Some 4%nat) = "Playback failed. Format not supported."%string /\
  MediaEvents.errorMessage (Some 7%nat) = "Playback failed. Code: 7"%string /\
  MediaEvents.errorMessage None = "Playback failed."%string.
Proof. repeat split; reflexivity. Qed.

(** * The drift-sync effect with its dependency list *)

Lemma driftSyncHook_skipped (previous : option Props) (p : Props) (s : State) :
  driftSyncRuns previous p = false -> driftSyncHook previous p s = (tt, s, []).
Proof. unfold driftSyncHook. now intros ->. Qed.

Lemma driftSyncHook_run (previous : option Props) (p : Props) (s : State) :
  driftSyncRuns previous p = true -> driftSyncHook previous p s = driftSyncEffect p s.
Proof. unfold driftSyncHook. now intros ->. Qed.

(** On the same clip the list changes exactly when the playhead does. *)
Lemma driftSyncRuns_same_start (q p : Props) (c' c : Clip) :
  activeClip q = Some c' ->
  activeClip p = Some c ->
  start c' == start c ->
  (driftSyncRuns (Some q) p = true <-> ~ playheadTime q == playheadTime p).
Proof.
  intros Hq Hp E. unfold driftSyncRuns, sameDeps, driftSyncDeps.
  rewrite Hq, Hp. cbn [fst snd option_map].
  apply Qeq_bool_iff in E. rewrite E, andb_true_r, negb_true_iff.
  rewrite <- not_true_iff_false, Qeq_bool_iff. reflexivity.
Qed.



(** Scenario E with the dependency list: the broadcast moves the playhead
    from 2.0 to 2.5 while the element is at 2.0. *)
Example scenario_E_changed_playhead_repositions :
  trace (driftSyncHook (Some (mkProps [Scenario.first5] 2 true))
                       (mkProps [Scenario.first5] 2.5 true))
        (Scenario.playing Scenario.first5 2) =
  [video_set_currentTime (JS.Math_max 0 (2.5 - start Scenario.first5))].
Proof. reflexivity. Qed.




(** X4.  A tick inside the clip reports [clip.start + currentTime] and
    requests the next frame; the time it reports lies in the clip.  When
    the clips do not overlap and the snapshot comes back with that
    playhead, the same clip is active, and the render leaves the element
    alone if it has moved on by at most 0.1 seconds since the tick, or if
    the reported playhead is the one the player had already; if it has
    moved on by more and the playhead is another, the drift-sync effect
    pulls it back to the tick's position. *)
Theorem tick_inside_clip_round_trip
        (convertFileSrc : string -> string)
        (p : Props) (s : State) (clip : Clip) (v : HTMLVideoElement) :
  videoRef s = Some v ->
  activeClip p = Some clip ->
  isPlaying p = true ->
  0 <= currentTime v ->
  currentTime v < duration clip ->
  NoOverlap (clips p) ->
  trace (updatePlayhead p) s =
    [onPlayheadChange (start clip + currentTime v);
     requestAnimationFrame (S (lastFrameHandle s))] /\
  inInterval clip (start clip + currentTime v) /\
  forall (payload : TimelineState) (previous : option TimelineState)
         (s1 : State) (v1 : HTMLVideoElement),
    ts_clips payload = clips p ->
    playhead_time payload == start clip + currentTime v ->
    videoRef s1 = Some v1 ->
    currentClipId s1 = Some (id clip) ->
    let p' := App.videoPlayerProps (App.onStateUpdate payload previous) true in
    activeClip p' = Some clip /\
    (Qabs (currentTime v1 - currentTime v) <= 0.1 \/
     playheadTime p == start clip + currentTime v ->
     trace (clipChangeEffect convertFileSrc p' ;; driftSyncHook (Some p) p') s1 = []) /\
    (0.1 < Qabs (currentTime v1 - currentTime v) ->
     ~ playheadTime p == start clip + currentTime v ->
     exists t, t == currentTime v /\
       trace (clipChangeEffect convertFileSrc p' ;; driftSyncHook (Some p) p') s1 =
       [video_set_currentTime t]).
Proof.
  intros Hv Ha Hp H0 Hd Hno.
  pose proof (updatePlayhead_within p s clip v Hv Ha Hp Hd) as Hrun.
  assert (Hint : inInterval clip (start clip + currentTime v))
    by (unfold inInterval; lra).
  split; [unfold trace; now rewrite Hrun|]. split; [exact Hint|].
  intros payload previous s1 v1 Hclips Hpt Hv1 Hc1 p'.
  destruct (activeClip_inInterval p clip Ha) as (Hin & _).
  assert (Ha' : activeClip p' = Some clip).
  { unfold p', App.videoPlayerProps, App.onStateUpdate, activeClip.
    cbn [clips playheadTime]. rewrite Hclips.
    rewrite (getActiveClip_time_eq _ _ _ Hpt), getActiveClip_resolve.
    apply resolve_NoOverlap; auto. now apply covers_iff. }
  assert (Hpt' : playheadTime p' == start clip + currentTime v) by exact Hpt.
  assert (Hoff : playheadTime p' - start clip == currentTime v)
    by (rewrite Hpt'; ring).
  assert (Habs : Qabs (currentTime v1 - (playheadTime p' - start clip)) ==
                 Qabs (currentTime v1 - currentTime v)) by now rewrite Hoff.
  assert (Hruns : driftSyncRuns (Some p) p' = true <->
                  ~ playheadTime p == start clip + currentTime v).
  { rewrite (driftSyncRuns_same_start p p' clip clip Ha Ha' (Qeq_refl _)).
    now rewrite Hpt'. }
  split; [exact Ha'|].
  destruct (trace_seq (clipChangeEffect convertFileSrc p') (driftSyncHook (Some p) p') s1)
    as [-> _].
  unfold trace at 1 3, exec.
  rewrite (clipChangeEffect_same _ _ _ _ Ha' Hc1). cbn [fst snd app].
  split.
  - intros [H|H]; unfold trace.
    + destruct (driftSyncRuns (Some p) p') eqn:R;
        [|now rewrite (driftSyncHook_skipped _ _ _ R)].
      rewrite (driftSyncHook_run _ _ _ R).
      rewrite (driftSyncEffect_near p' s1 clip v1 Ha' Hv1); [reflexivity|].
      now rewrite Habs.
    + rewrite driftSyncHook_skipped; [reflexivity|].
      apply not_true_iff_false. intro R. now apply Hruns in R.
  - intros H Hne. exists (JS.Math_max 0 (playheadTime p' - start clip)). split.
    + unfold JS.Math_max. rewrite Hoff. apply Q.max_r. exact H0.
    + unfold trace. rewrite driftSyncHook_run by now apply Hruns.
      rewrite (driftSyncEffect_far p' s1 clip v1 Ha' Hv1); [reflexivity|].
      now rewrite Habs.
Qed.

Lemma tick_inside_clip_round_trip_witness :
  trace (updatePlayhead (mkProps Scenario.abutting 2 true))
        (Scenario.playing Scenario.first5 2.5) =
  [onPlayheadChange (start Scenario.first5 + 2.5); requestAnimationFrame 1].
Proof.
  apply (tick_inside_clip_round_trip
           Scenario.assetUrl (mkProps Scenario.abutting 2 true)
           (Scenario.playing Scenario.first5 2.5) Scenario.first5
           (mkVideo (Scenario.assetUrl "/media/one.mp4") 2.5 false)).
  - reflexivity.
  - reflexivity.
  - reflexivity.
  - vm_compute. discriminate.
  - reflexivity.
  - exact abutting_NoOverlap.
Defined.

(** X12.  Every message built by [onError] starts with "Playback failed."
    and is not empty, so after a media error on the rendered element the
    component shows the failure panel; [onLoadedData], which can fire only
    on the rendered element, never changes what is shown. *)
Theorem media_error_shows_failure_panel
        (mediaError : option nat) (p : Props) (s : State) :
  render p s = VideoElement ->
  String.prefix "Playback failed." (MediaEvents.errorMessage mediaError) = true /\
  error (exec (MediaEvents.onError p mediaError) s) =
    Some (MediaEvents.errorMessage mediaError) /\
  render p (exec (MediaEvents.onError p mediaError) s) = FailedToLoad /\
  (forall s', render p (exec (MediaEvents.onLoadedData p) s') = render p s').
Proof.
  intro Hr.
  assert (Hmsg : exists rest,
             MediaEvents.errorMessage mediaError = ("Playback failed." ++ rest)%string).
  { unfold MediaEvents.errorMessage. cbv zeta.
    destruct mediaError as [code|]; [|now exists ""%string].
    repeat match goal with
           | |- context [if ?b then _ else _] => destruct b
           end; eexists; reflexivity. }
  destruct Hmsg as [rest Hmsg].
  split; [rewrite Hmsg; apply prefix_append|].
  unfold MediaEvents.onError, MediaEvents.onLoadedData,
    MediaEvents.whileElementRendered, exec.
  rewrite Hr. run. rewrite Hmsg. split; [reflexivity|]. split.
  - unfold render in *. cbn [error].
    destruct (length (clips p) =? 0)%nat; [discriminate|].
    destruct (activeClip p); [reflexivity | discriminate].
  - intro s'. destruct (render p s') eqn:R'; run; try exact R'.
    unfold render in *. cbn [error].
    destruct (length (clips p) =? 0)%nat; [discriminate|].
    destruct (activeClip p); [reflexivity | discriminate].
Qed.

Lemma media_error_shows_failure_panel_witness :
  render (mkProps Scenario.abutting 2 true)
         (exec (MediaEvents.onError (mkProps Scenario.abutting 2 true) (Some 4%nat))
               (Scenario.playing Scenario.first5 2)) =
  FailedToLoad.
Proof.
  apply (media_error_shows_failure_panel
           (Some 4%nat) (mkProps Scenario.abutting 2 true)
           (Scenario.playing Scenario.first5 2)).
  reflexivity.
Defined.
